(** * LESShints: a shallow embedding of [main.js] and its properties

    The extension is one object, [LESSHint], with the three methods the
    editor calls ([hasHints], [getHints], [insertHint]) and their helpers
    ([validPosition], [getText], [getAll], [filterHints], [processHints]).

    Conventions of the embedding:
    - a JavaScript string is a [string]; a character of it stands for one
      UTF-16 code unit in the range U+0000..U+00FF, on which
      [String.prototype.toLowerCase] is a map on code units and the regular
      expression classes used by the program are given below;
    - [null] and [undefined] are [None];
    - the fields of [this] are a record that is threaded through every method,
      the calls made on the editor and on the document are written to a log,
      and a [TypeError] raised by dereferencing [null] ends the method. *)

From Stdlib Require Import Ascii String List NArith ZArith Lia Bool Arith.
From Stdlib Require Import Sorting.Sorted Sorting.Permutation.
Import ListNotations.

Local Open Scope string_scope.
Local Open Scope list_scope.

(** ** Strings of the host language *)

Module JS.

(** Code-unit tests, on the numeric value of the character. *)
Definition code (c : ascii) : N := N_of_ascii c.

Definition between (lo hi : N) (c : ascii) : bool :=
  (lo <=? code c)%N && (code c <=? hi)%N.

Definition isUpper (c : ascii) : bool := between 65 90 c.
Definition isLower (c : ascii) : bool := between 97 122 c.
Definition isDigit (c : ascii) : bool := between 48 57 c.

(** [toLowerCase] on one code unit: A-Z, and the upper-case letters of the
    Latin-1 block (U+00C0..U+00DE without the multiplication sign U+00D7),
    move up by 32; every other code unit is left alone. *)
Definition lowerChar (c : ascii) : ascii :=
  if isUpper c || (between 192 222 c && negb (code c =? 215)%N)
  then ascii_of_N (code c + 32)
  else c.

Fixpoint toLowerCase (s : string) : string :=
  match s with
  | EmptyString => EmptyString
  | String c s' => String (lowerChar c) (toLowerCase s')
  end.

(** [s.split] with the empty separator: the code units of [s], in order. *)
Definition split_chars (s : string) : list ascii := list_ascii_of_string s.

(** [s.indexOf(c)] for a one-code-unit search string: the first index at
    which [c] occurs, or [-1]. *)
Fixpoint indexOf (s : string) (c : ascii) : Z :=
  match s with
  | EmptyString => (-1)%Z
  | String d s' =>
      if Ascii.eqb d c then 0%Z
      else let i := indexOf s' c in
           if (i =? -1)%Z then (-1)%Z else (i + 1)%Z
  end.

Fixpoint drop (n : nat) (s : string) : string :=
  match n, s with
  | O, _ => s
  | S _, EmptyString => EmptyString
  | S n', String _ s' => drop n' s'
  end.

Fixpoint take (n : nat) (s : string) : string :=
  match n, s with
  | O, _ => EmptyString
  | S _, EmptyString => EmptyString
  | S n', String c s' => String c (take n' s')
  end.

(** [s.substr(start)]: the rest of [s] from [start]; a negative [start]
    counts from the end of the string. *)
Definition substr (start : Z) (s : string) : string :=
  let len := Z.of_nat (String.length s) in
  let from := if (start <? 0)%Z then Z.max 0 (len + start) else start in
  drop (Z.to_nat from) s.

(** [a > b] and [a < b] on strings: code units compared left to right, a
    proper prefix being the smaller. *)
Definition lt (a b : string) : bool := String.ltb a b.
Definition gt (a b : string) : bool := String.ltb b a.

(** Truthiness of a string. *)
Definition truthy (s : string) : bool := negb (String.eqb s "").

(** [Array.prototype.indexOf] on an array of strings. *)
Fixpoint arrayIndexOf (l : list string) (x : string) : Z :=
  match l with
  | [] => (-1)%Z
  | y :: l' =>
      if String.eqb y x then 0%Z
      else let i := arrayIndexOf l' x in
           if (i =? -1)%Z then (-1)%Z else (i + 1)%Z
  end.

(** [a[i]] on an array: [undefined] outside of [0 .. length-1]. *)
Definition arrayGet {A : Type} (l : list A) (i : Z) : option A :=
  if (i <? 0)%Z then None else nth_error l (Z.to_nat i).

End JS.

(** ** The result of [RegExp.prototype.exec] for the declaration pattern

    [m0] is the whole match, [m1] and [m2] the two captured groups and
    [index] the position of the match in the text. *)
Record Match : Type := mkMatch {
  m0 : string;
  m1 : string;
  m2 : string;
  index : nat
}.

(** ** filterHints *)

(** The body of the callback given to [matches.filter]: the loop over
    [written], with [hint] cut after each character that was found. *)
Fixpoint filterLoop (written : list ascii) (hint : string) : bool :=
  match written with
  | [] => true
  | w :: rest =>
      let index := JS.indexOf hint w in
      if (index =? -1)%Z then false
      else filterLoop rest (JS.substr (index + 1) hint)
  end.

(** The method, as a function of the field [this.writtenSinceStart] that it
    reads. *)
Definition filterHints (writtenSinceStart : string) (matches : list Match)
  : list Match :=
  let written := JS.split_chars (JS.toLowerCase writtenSinceStart) in
  filter (fun m => filterLoop written (JS.toLowerCase (m1 m))) matches.

(** [Subseq w s]: the characters of [w] occur in [s] in the same order, not
    necessarily next to each other. *)
Inductive Subseq : string -> string -> Prop :=
| Subseq_empty : forall s, Subseq "" s
| Subseq_take : forall c w s, Subseq w s -> Subseq (String c w) (String c s)
| Subseq_skip : forall c w s, Subseq w s -> Subseq w (String c s).


(** ** Regular expressions

    A backtracking matcher for the fragment of the regular-expression
    language that the two patterns of the program use: literal characters,
    the escapes [\w] and [\s], bracketed classes and their negation, the
    greedy quantifiers [*] and [+] on a one-character atom, and capturing
    groups; with the flags [i] and [g]. *)

Module RegExp.

Inductive item : Type :=
| Lit (c : ascii)      (* a literal character *)
| WordChar             (* \w *)
| WhiteSpace.          (* \s *)

Inductive atom : Type :=
| One (i : item)              (* c, \w, \s *)
| AnyOf (l : list item)       (* [...] *)
| NoneOf (l : list item).     (* [^...] *)

Inductive node : Type :=
| Atom (a : atom)
| Star (a : atom)             (* a* *)
| Plus (a : atom)             (* a+ *)
| Group (n : node).           (* ( n ) *)

Definition regex : Type := list node.

(** [\w] is [A-Za-z0-9_]. *)
Definition isWord (c : ascii) : bool :=
  JS.isUpper c || JS.isLower c || JS.isDigit c || Ascii.eqb c "_".

(** [\s]: tab, line feed, vertical tab, form feed, carriage return, space
    and the no-break space U+00A0. *)
Definition isSpace (c : ascii) : bool :=
  JS.between 9 13 c || (JS.code c =? 32)%N || (JS.code c =? 160)%N.

Definition inItem (i : item) (c : ascii) : bool :=
  match i with
  | Lit d => Ascii.eqb d c
  | WordChar => isWord c
  | WhiteSpace => isSpace c
  end.

(** The set of characters an atom stands for, before negation. *)
Definition inSet (a : atom) (c : ascii) : bool :=
  match a with
  | One i => inItem i c
  | AnyOf l | NoneOf l => existsb (fun i => inItem i c) l
  end.

Definition inverted (a : atom) : bool :=
  match a with NoneOf _ => true | _ => false end.

(** [Canonicalize] under the [i] flag: the upper-case form of a character
    when that is again one character. Here a-z and the lower-case letters
    U+00E0..U+00FE (without the division sign U+00F7) move down by 32; the
    upper-case forms of U+00B5 and U+00FF lie outside of the range and are
    the image of no other character of it, so these two stay. *)
Definition canonicalize (c : ascii) : ascii :=
  if JS.isLower c || (JS.between 224 254 c && negb (JS.code c =? 247)%N)
  then ascii_of_N (JS.code c - 32)
  else c.

Definition allChars : list ascii :=
  map (fun n => ascii_of_N (N.of_nat n)) (seq 0 256).

(** The character-set matcher: without [i] the character has to be in the
    set; with [i] some member of the set has to have the canonical form of
    the character. A negated class inverts the answer. *)
Definition atomMatches (ignoreCase : bool) (a : atom) (c : ascii) : bool :=
  let found :=
    if ignoreCase
    then existsb (fun m => inSet a m &&
                           Ascii.eqb (canonicalize m) (canonicalize c))
                 allChars
    else inSet a c in
  if inverted a then negb found else found.

Section Matcher.

Variable ignoreCase : bool.

(** The state handed on from one node to the next: what is left of the
    input, and the captures made so far. A capture is added when its
    group has been matched; the groups of the two patterns are not nested,
    so that the captures come in the order of the groups. *)
Definition Cont : Type :=
  string -> list string -> option (string * list string).

(** Greedy repetition: take one more character when that is possible and
    the rest of the pattern matches after it; otherwise stop here. *)
Fixpoint star {R : Type} (p : ascii -> bool) (k : string -> option R)
         (s : string) : option R :=
  match s with
  | EmptyString => k s
  | String c s' =>
      if p c then
        match star p k s' with
        | Some r => Some r
        | None => k s
        end
      else k s
  end.

Fixpoint matchNode (n : node) (k : Cont) (s : string)
         (caps : list string) : option (string * list string) :=
  match n with
  | Atom a =>
      match s with
      | String c s' => if atomMatches ignoreCase a c then k s' caps else None
      | EmptyString => None
      end
  | Star a => star (atomMatches ignoreCase a) (fun s' => k s' caps) s
  | Plus a =>
      match s with
      | String c s' =>
          if atomMatches ignoreCase a c
          then star (atomMatches ignoreCase a) (fun s' => k s' caps) s'
          else None
      | EmptyString => None
      end
  | Group n' =>
      matchNode n'
        (fun s' caps' =>
           k s' (caps' ++ [JS.take (String.length s - String.length s') s]))
        s caps
  end.

Fixpoint matchSeq (r : regex) (k : Cont) : Cont :=
  match r with
  | [] => k
  | n :: r' => matchNode n (matchSeq r' k)
  end.

(** A match of the whole pattern at the start of [s]: what is left of
    [s] after it, and the captured groups. *)
Definition matchHere (r : regex) (s : string)
  : option (string * list string) :=
  matchSeq r (fun s' caps => Some (s', caps)) s [].

(** The search of [exec]: [s] is the text from position [i] on; the
    pattern is tried at [i], then at [i+1], and so on up to and including
    the end of the text. The result is the position of the match, the
    matched text and the captures. *)
Fixpoint search (r : regex) (s : string) (i : nat)
  : option (nat * string * list string) :=
  match matchHere r s with
  | Some (rest, caps) =>
      Some (i, JS.take (String.length s - String.length rest) s, caps)
  | None =>
      match s with
      | EmptyString => None
      | String _ s' => search r s' (S i)
      end
  end.

(** [r.exec(text)] for a pattern with the [g] flag: the search starts at
    [lastIndex]; a match moves [lastIndex] to its end, a failure sets it
    back to [0]. *)
Definition exec (r : regex) (lastIndex : nat) (text : string)
  : option (nat * string * list string) * nat :=
  if (String.length text <? lastIndex)%nat then (None, 0)
  else
    match search r (JS.drop lastIndex text) lastIndex with
    | Some (i, whole, caps) => (Some (i, whole, caps), i + String.length whole)
    | None => (None, 0)
    end.

(** [r.test(s)] for a pattern without the [g] flag, made of one atom. *)
Definition test (a : atom) (s : string) : bool :=
  existsb (atomMatches ignoreCase a) (list_ascii_of_string s).

End Matcher.

End RegExp.

Import RegExp.

(** ** The settings of the constructor *)

(** [this.regex = /@([\w\-]+)\s*:\s*([^\n;]+)/ig] *)
Definition regex_nodes : regex :=
  [ Atom (One (Lit "@"));
    Group (Plus (AnyOf [WordChar; Lit "-"]));
    Star (One WhiteSpace);
    Atom (One (Lit ":"));
    Star (One WhiteSpace);
    Group (Plus (NoneOf [Lit "010"; Lit ";"])) ].

(** [this.chars = /[@\w\-]/i] *)
Definition chars_atom : atom := AnyOf [Lit "@"; WordChar; Lit "-"].

Definition chars_test (s : string) : bool := RegExp.test true chars_atom s.

(** The array that [exec] returns for [this.regex], which has two groups. *)
Definition asMatch (r : nat * string * list string) : option Match :=
  match r with
  | (i, whole, [g1; g2]) => Some (mkMatch whole g1 g2 i)
  | _ => None
  end.

(** ** getAll

    The loop [while ((match = regex.exec(text)) !== null) matches.push(match)].
    [regex] is the one object held in [this.regex], so its [lastIndex] is
    state that outlives the call. The loop is run with a bound on the number
    of rounds; [None] says that the bound was reached, or that [exec] gave an
    array of another shape than [asMatch] expects. *)
Fixpoint getAllLoop (fuel : nat) (lastIndex : nat) (text : string)
  : option (list Match * nat) :=
  match fuel with
  | O => None
  | S fuel' =>
      match exec true regex_nodes lastIndex text with
      | (None, lastIndex') => Some ([], lastIndex')
      | (Some r, lastIndex') =>
          match asMatch r, getAllLoop fuel' lastIndex' text with
          | Some m, Some (matches, lastIndex'') => Some (m :: matches, lastIndex'')
          | _, _ => None
          end
      end
  end.

Definition getAll (lastIndex : nat) (text : string)
  : option (list Match * nat) :=
  getAllLoop (S (String.length text)) lastIndex text.

(** ** processHints *)

(** The comparison function given to [matches.sort]. *)
Definition compareFn (match1 match2 : Match) : Z :=
  let var1 := JS.toLowerCase (m1 match1) in
  let var2 := JS.toLowerCase (m1 match2) in
  if JS.gt var1 var2 then 1%Z
  else if JS.lt var1 var2 then (-1)%Z
  else 0%Z.

(** [Array.prototype.sort] with a comparison function. The language
    requires the sort to be stable; for a comparison function that is a
    total preorder this fixes the result, which is computed here by
    insertion from the right: an element goes before the first element of
    the sorted rest that it is not greater than. *)
Fixpoint sortInsert {A : Type} (cmp : A -> A -> Z) (x : A) (l : list A)
  : list A :=
  match l with
  | [] => [x]
  | y :: l' => if (0 <? cmp x y)%Z then y :: sortInsert cmp x l' else x :: l
  end.

Definition sort {A : Type} (cmp : A -> A -> Z) (l : list A) : list A :=
  fold_right (sortInsert cmp) [] l.

(** [x] may stand before [y] in an array sorted with [cmp]. *)
Definition mayPrecede {A : Type} (cmp : A -> A -> Z) (x y : A) : Prop :=
  (0 <? cmp x y)%Z = false.

(** The element of [hintsHTML] made from a match. *)
Definition render (m : Match) : string :=
  m1 m ++ "<span style='color:#a0a0a0; margin-left: 10px'>" ++ m2 m ++ "</span>".

(** ** The editor and the document

    Both belong to the host. The program reads the cursor position, the
    whole text and the text of a range, and asks for one range to be
    replaced; [Host] is what it can observe in one call of a method. The
    document of the editor and the current document of the document manager
    are taken to be one and the same. *)

Record Pos : Type := mkPos {
  line : nat;
  ch : nat
}.

Record Host : Type := mkHost {
  getCursorPos : Pos;                 (* editor.getCursorPos() *)
  getText : string;                   (* editor.document.getText() *)
  getRange : Pos -> Pos -> string     (* document.getRange(start, end) *)
}.

(** The calls made on the host, in the order in which they are made. *)
Inductive HostCall : Type :=
| GetCursorPos
| GetCurrentDocument
| GetRange (start finish : Pos)
| GetText
| ReplaceRange (text : option string) (start : option Pos) (finish : Pos).

Definition isReplaceRange (c : HostCall) : bool :=
  match c with ReplaceRange _ _ _ => true | _ => false end.

(** ** The object [this] *)

Record LESSHint : Type := mkLESSHint {
  implicitChar : string;
  regex_lastIndex : nat;         (* this.regex.lastIndex *)
  hints : list string;
  hintsHTML : list string;
  writtenSinceStart : string;
  startPos : option Pos;
  editor : bool                  (* whether this.editor has been assigned *)
}.

(** The constructor. *)
Definition new_LESSHint : LESSHint :=
  {| implicitChar := "@";
     regex_lastIndex := 0;
     hints := [];
     hintsHTML := [];
     writtenSinceStart := "";
     startPos := None;
     editor := false |}.

Definition set_editor (s : LESSHint) : LESSHint :=
  {| implicitChar := implicitChar s; regex_lastIndex := regex_lastIndex s;
     hints := hints s; hintsHTML := hintsHTML s;
     writtenSinceStart := writtenSinceStart s; startPos := startPos s;
     editor := true |}.

Definition set_startPos (p : Pos) (s : LESSHint) : LESSHint :=
  {| implicitChar := implicitChar s; regex_lastIndex := regex_lastIndex s;
     hints := hints s; hintsHTML := hintsHTML s;
     writtenSinceStart := writtenSinceStart s; startPos := Some p;
     editor := editor s |}.

Definition set_writtenSinceStart (w : string) (s : LESSHint) : LESSHint :=
  {| implicitChar := implicitChar s; regex_lastIndex := regex_lastIndex s;
     hints := hints s; hintsHTML := hintsHTML s;
     writtenSinceStart := w; startPos := startPos s;
     editor := editor s |}.

Definition set_lastIndex (n : nat) (s : LESSHint) : LESSHint :=
  {| implicitChar := implicitChar s; regex_lastIndex := n;
     hints := hints s; hintsHTML := hintsHTML s;
     writtenSinceStart := writtenSinceStart s; startPos := startPos s;
     editor := editor s |}.

Definition set_hints (l : list string) (s : LESSHint) : LESSHint :=
  {| implicitChar := implicitChar s; regex_lastIndex := regex_lastIndex s;
     hints := l; hintsHTML := hintsHTML s;
     writtenSinceStart := writtenSinceStart s; startPos := startPos s;
     editor := editor s |}.

Definition set_hintsHTML (l : list string) (s : LESSHint) : LESSHint :=
  {| implicitChar := implicitChar s; regex_lastIndex := regex_lastIndex s;
     hints := hints s; hintsHTML := l;
     writtenSinceStart := writtenSinceStart s; startPos := startPos s;
     editor := editor s |}.

(** ** Methods as computations

    A method takes the object, and either returns a value and the object as
    it has left it, or throws, or does not come back; in every case with the
    log of its calls on the host. *)

Inductive Outcome (A : Type) : Type :=
| Returned (a : A) (s : LESSHint) (log : list HostCall)
| Thrown (s : LESSHint) (log : list HostCall)
| Diverged.

Arguments Returned {A} a s log.
Arguments Thrown {A} s log.
Arguments Diverged {A}.

Definition M (A : Type) : Type := LESSHint -> Outcome A.

Definition ret {A : Type} (a : A) : M A := fun s => Returned a s [].

Definition bind {A B : Type} (m : M A) (f : A -> M B) : M B :=
  fun s =>
    match m s with
    | Returned a s' log =>
        match f a s' with
        | Returned b s'' log' => Returned b s'' (log ++ log')%list
        | Thrown s'' log' => Thrown s'' (log ++ log')%list
        | Diverged => Diverged
        end
    | Thrown s' log => Thrown s' log
    | Diverged => Diverged
    end.

Notation "x <- m ;; k" := (bind m (fun x => k))
  (at level 61, m at next level, right associativity).
Notation "m ;; k" := (bind m (fun _ => k))
  (at level 61, right associativity).

Definition this {A : Type} (field : LESSHint -> A) : M A :=
  fun s => Returned (field s) s [].

Definition assign (update : LESSHint -> LESSHint) : M unit :=
  fun s => Returned tt (update s) [].

Definition call (c : HostCall) : M unit :=
  fun s => Returned tt s [c].

Definition throwTypeError {A : Type} : M A := fun s => Thrown s [].

Definition diverge {A : Type} : M A := fun _ => Diverged.

(** A property of [null] or [undefined] cannot be read. *)
Definition deref {A : Type} (o : option A) : M A :=
  match o with
  | Some a => ret a
  | None => throwTypeError
  end.

Section Methods.

Variable host : Host.

(** [this.editor.getCursorPos()] *)
Definition editor_getCursorPos : M Pos :=
  e <- this editor ;;
  if e then call GetCursorPos ;; ret (getCursorPos host)
  else throwTypeError.

(** [hasHints(editor, implicitChar)]; the editor given is the host's. *)
Definition hasHints (implicitChar' : option string) : M bool :=
  assign set_editor ;;
  pos <- editor_getCursorPos ;;
  assign (set_startPos pos) ;;
  sigil <- this implicitChar ;;
  ret (match implicitChar' with
       | Some c => if JS.truthy c then String.eqb c sigil else false
       | None => false
       end).

(** The first test of [validPosition]:
    [implicitChar && !this.chars.test(implicitChar)]. *)
Definition invalidChar (implicitChar' : option string) : bool :=
  match implicitChar' with
  | Some c => JS.truthy c && negb (chars_test c)
  | None => false
  end.

Definition validPosition (implicitChar' : option string) : M bool :=
  if invalidChar implicitChar' then ret false
  else
    call GetCurrentDocument ;;
    cursorPos <- editor_getCursorPos ;;
    start <- this startPos ;;
    start <- deref start ;;
    if (line cursorPos =? line start)%nat && (ch start <=? ch cursorPos)%nat
    then
      call (GetRange start cursorPos) ;;
      assign (set_writtenSinceStart (getRange host start cursorPos)) ;;
      ret true
    else ret false.

(** [getText()] *)
Definition getText_ : M string :=
  e <- this editor ;;
  if e then call GetText ;; ret (getText host) else throwTypeError.

(** [getAll(this.regex, text)], on the [lastIndex] that [this.regex] has. *)
Definition getAll_ (text : string) : M (list Match) :=
  lastIndex <- this regex_lastIndex ;;
  match getAll lastIndex text with
  | Some (matches, lastIndex') =>
      assign (set_lastIndex lastIndex') ;; ret matches
  | None => diverge
  end.

(** [filterHints(matches)] reads [this.writtenSinceStart]. *)
Definition filterHints_ (matches : list Match) : M (list Match) :=
  written <- this writtenSinceStart ;;
  ret (filterHints written matches).

Definition processHints (matches : list Match) : M unit :=
  let matches := sort compareFn matches in
  assign (set_hints (map m1 matches)) ;;
  assign (set_hintsHTML (map render matches)).

(** The object that [getHints] returns. *)
Record HintResponse : Type := mkHintResponse {
  response_hints : list string;
  response_match : option string;
  selectInitial : bool;
  handleWideResults : bool
}.

Definition getHints (implicitChar' : option string)
  : M (option HintResponse) :=
  valid <- validPosition implicitChar' ;;
  if negb valid then ret None
  else
    text <- getText_ ;;
    matches <- getAll_ text ;;
    matches <- filterHints_ matches ;;
    processHints matches ;;
    html <- this hintsHTML ;;
    ret (Some {| response_hints := html;
                 response_match := None;
                 selectInitial := true;
                 handleWideResults := false |}).

Definition insertHint (hint : string) : M unit :=
  html <- this hintsHTML ;;
  let index := JS.arrayIndexOf html hint in
  names <- this hints ;;
  let hint := JS.arrayGet names index in
  call GetCurrentDocument ;;
  pos <- editor_getCursorPos ;;
  start <- this startPos ;;
  call (ReplaceRange hint start pos).

End Methods.

(** What a computation leaves behind. *)
Definition stateAfter {A : Type} (o : Outcome A) : option LESSHint :=
  match o with
  | Returned _ s _ | Thrown s _ => Some s
  | Diverged => None
  end.

Definition logOf {A : Type} (o : Outcome A) : list HostCall :=
  match o with
  | Returned _ _ log | Thrown _ log => log
  | Diverged => []
  end.

(** The states of the object that the host can bring about: it constructs
    the object and then calls [hasHints], [getHints] and [insertHint]. *)
Inductive Reachable : LESSHint -> Prop :=
| Reachable_new : Reachable new_LESSHint
| Reachable_hasHints : forall host c s s',
    Reachable s -> stateAfter (hasHints host c s) = Some s' -> Reachable s'
| Reachable_getHints : forall host c s s',
    Reachable s -> stateAfter (getHints host c s) = Some s' -> Reachable s'
| Reachable_insertHint : forall host hint s s',
    Reachable s -> stateAfter (insertHint host hint s) = Some s' -> Reachable s'.

(** ** Vocabulary of the specification *)

Fixpoint allOf (p : ascii -> bool) (s : string) : bool :=
  match s with
  | EmptyString => true
  | String c s' => p c && allOf p s'
  end.

(** The characters of a variable name: letters, digits, underscore, hyphen. *)
Definition nameChar (c : ascii) : bool :=
  JS.isUpper c || JS.isLower c || JS.isDigit c || Ascii.eqb c "_"
  || Ascii.eqb c "-".

(** The characters of a value: all but the line feed and the semicolon. *)
Definition valueChar (c : ascii) : bool :=
  negb (Ascii.eqb c "010") && negb (Ascii.eqb c ";").

(** The characters that keep a session alive when typed. *)
Definition allowedChar (c : ascii) : bool :=
  Ascii.eqb c "@" || nameChar c.

(** [whole] is a declaration of [name] with [value]: the sigil, the name,
    white space, a colon, white space, the value. *)
Definition Declaration (whole name value : string) : Prop :=
  exists ws1 ws2,
    whole = ("@" ++ name ++ ws1 ++ ":" ++ ws2 ++ value)%string
    /\ name <> "" /\ allOf nameChar name = true
    /\ allOf isSpace ws1 = true /\ allOf isSpace ws2 = true
    /\ value <> "" /\ allOf valueChar value = true.

(** Some declaration starts at position [i] of [text]. *)
Definition OccursAt (text : string) (i : nat) : Prop :=
  i <= String.length text /\
  exists whole name value rest,
    JS.drop i text = (whole ++ rest)%string /\ Declaration whole name value.

(** [m] is a declaration found in [text] at [index m], whose value runs up
    to the end of the text or to a line feed or semicolon. *)
Definition MatchIn (text : string) (m : Match) : Prop :=
  index m + String.length (m0 m) <= String.length text
  /\ JS.take (String.length (m0 m)) (JS.drop (index m) text) = m0 m
  /\ Declaration (m0 m) (m1 m) (m2 m)
  /\ match JS.drop (index m + String.length (m0 m)) text with
     | EmptyString => True
     | String c _ => valueChar c = false
     end.

(** [Scan text from ms]: [ms] are the declarations met when [text] is read
    from position [from] on, each one the first that starts at or after the
    end of the one before, up to the point after which none starts. *)
Inductive Scan (text : string) : nat -> list Match -> Prop :=
| Scan_end : forall from,
    (forall i, from <= i -> ~ OccursAt text i) ->
    Scan text from []
| Scan_next : forall from m ms,
    from <= index m ->
    (forall i, from <= i < index m -> ~ OccursAt text i) ->
    MatchIn text m ->
    Scan text (index m + String.length (m0 m)) ms ->
    Scan text from (m :: ms).

(** The key the matches are sorted by, and the order on keys. *)
Definition sortKey (m : Match) : string := JS.toLowerCase (m1 m).

Definition keyLe (a b : string) : Prop := String.leb a b = true.

Definition hasKey (k : string) (m : Match) : bool := String.eqb (sortKey m) k.

(** ** Hosts to run the methods on *)

Definition newline : string := String "010" "".

(** The text between two positions of a document given by its lines. *)
Definition rangeOfLines (lines : list string) (a b : Pos) : string :=
  if (line a =? line b)%nat then
    JS.take (ch b - ch a) (JS.drop (ch a) (nth (line a) lines ""))
  else if (line a <? line b)%nat then
    (JS.drop (ch a) (nth (line a) lines "") ++ newline
     ++ String.concat "" (map (fun l => l ++ newline)
                              (firstn (line b - line a - 1)
                                      (skipn (S (line a)) lines)))
     ++ JS.take (ch b) (nth (line b) lines ""))%string
  else "".

Definition hostOfLines (lines : list string) (cursor : Pos) : Host :=
  {| getCursorPos := cursor;
     getText := String.concat newline lines;
     getRange := rangeOfLines lines |}.


(** The document of the first example of the specification, and the two
    declarations in it. *)
Definition exampleText : string :=
  ("@color: red;" ++ newline ++ "@bg-color: blue;")%string.

Definition exampleMatches : list Match :=
  [ mkMatch "@color: red" "color" "red" 0;
    mkMatch "@bg-color: blue" "bg-color" "blue" 13 ].

Definition notSigil (c : ascii) : bool := negb (Ascii.eqb c "@").

(** The list that [getHints] shows: the matches that pass the filter, in
    sorted order. *)
Definition hintsFor (written : string) (matches : list Match) : list Match :=
  sort compareFn (filterHints written matches).

(** What holds of the object whenever the host can call it. *)
Definition Invariant (s : LESSHint) : Prop :=
  implicitChar s = "@"
  /\ regex_lastIndex s = 0
  /\ (exists matches,
        hints s = map m1 matches /\ hintsHTML s = map render matches
        /\ Forall (fun m => allOf nameChar (m1 m) = true) matches)
  /\ (hintsHTML s = [] \/ (editor s = true /\ exists start, startPos s = Some start)).

(** A session on a document of three lines: the sigil is typed at the end
    of the third line, then the letter [c]. *)
Definition exampleLines : list string :=
  ["@color: red;"; "@bg-color: blue;"; "a { color: @c"].

Definition hostAtSigil : Host := hostOfLines exampleLines (mkPos 2 12).
Definition hostAfterC : Host := hostOfLines exampleLines (mkPos 2 13).

Definition hostAfterUnderscore : Host :=
  hostOfLines ["@color: red;"; "@bg-color: blue;"; "a { color: @_"] (mkPos 2 13).

Definition stateOr {A : Type} (o : Outcome A) : LESSHint :=
  match stateAfter o with
  | Some s => s
  | None => new_LESSHint
  end.

Definition sessionStarted : LESSHint :=
  stateOr (hasHints hostAtSigil (Some "@") new_LESSHint).

Definition sessionWithHints : LESSHint :=
  stateOr (getHints hostAfterC (Some "c") sessionStarted).

(** [m] is what the pattern gives when it is tried at [index m] of [text]:
    the whole match [m0 m], with [m1 m] and [m2 m] captured. *)
Definition FoundAt (text : string) (m : Match) : Prop :=
  exists rest,
    matchHere true regex_nodes (JS.drop (index m) text) = Some (rest, [m1 m; m2 m])
    /\ JS.drop (index m) text = (m0 m ++ rest)%string.

(** The one-character atom that a node tests. *)
Fixpoint nodeAtom (n : node) : atom :=
  match n with
  | Atom a | Star a | Plus a => a
  | Group n' => nodeAtom n'
  end.

(** An atom on which the [i] flag makes no difference. *)
Definition caseBlind (a : atom) : Prop :=
  forall c, atomMatches true a c = atomMatches false a c.

(** A session in which what is written is in no name. *)
Definition hostNoCandidate : Host := hostOfLines ["@foo: 1;"; "@z"] (mkPos 1 2).

Definition sessionNoCandidate : LESSHint :=
  stateOr (hasHints (hostOfLines ["@foo: 1;"; "@"] (mkPos 1 1)) (Some "@")
                    new_LESSHint).

(** * Properties *)

(** ** Strings *)

Lemma append_assoc (a b c : string) :
  ((a ++ b) ++ c)%string = (a ++ (b ++ c))%string.
Proof. induction a as [|x a IH]; simpl; [reflexivity | now rewrite IH]. Qed.

Lemma length_append (a b : string) :
  String.length (a ++ b) = String.length a + String.length b.
Proof. induction a as [|x a IH]; simpl; [reflexivity | now rewrite IH]. Qed.

Lemma drop_length_append (a b : string) : JS.drop (String.length a) (a ++ b) = b.
Proof. induction a as [|x a IH]; simpl; [now destruct b | exact IH]. Qed.

Lemma take_length_append (a b : string) : JS.take (String.length a) (a ++ b) = a.
Proof.
  induction a as [|x a IH]; simpl; [now destruct b | now rewrite IH].
Qed.

Lemma append_inv_tail (a b r : string) :
  (a ++ r)%string = (b ++ r)%string -> a = b.
Proof.
  intros H.
  assert (L : String.length a = String.length b).
  { apply (f_equal String.length) in H. rewrite !length_append in H. lia. }
  rewrite <- (take_length_append a r), H, L. apply take_length_append.
Qed.

Lemma length_drop (n : nat) (s : string) :
  String.length (JS.drop n s) = String.length s - n.
Proof.
  revert s; induction n as [|n IH]; intros [|c s]; simpl; try reflexivity.
  apply IH.
Qed.

Lemma drop_drop (n k : nat) (s : string) : JS.drop n (JS.drop k s) = JS.drop (k + n) s.
Proof.
  revert s; induction k as [|k IH]; intros s; simpl; [reflexivity|].
  destruct s as [|c s]; [now destruct n | apply IH].
Qed.

Lemma allOf_ext (p q : ascii -> bool) (s : string) :
  (forall c, p c = q c) -> allOf p s = allOf q s.
Proof. intros E; induction s as [|c s IH]; simpl; [reflexivity | now rewrite E, IH]. Qed.

Lemma allOf_class (p q : ascii -> bool) (s : string) :
  (forall c, p c = q c) -> allOf q s = true -> allOf p s = true.
Proof. intros E H. now rewrite (allOf_ext p q s E). Qed.

Lemma substr_0 (s : string) : JS.substr 0 s = s.
Proof. reflexivity. Qed.

Lemma substr_next (i : Z) (c : ascii) (s : string) :
  (0 <= i)%Z -> JS.substr (i + 1) (String c s) = JS.substr i s.
Proof.
  intros H. unfold JS.substr.
  destruct (Z.ltb_spec (i + 1) 0); [lia|].
  destruct (Z.ltb_spec i 0); [lia|].
  replace (Z.to_nat (i + 1)) with (S (Z.to_nat i)) by lia.
  reflexivity.
Qed.

(** ** The filter accepts the names that have the written text as a
    subsequence *)

Lemma Subseq_tail (c : ascii) (w s : string) : Subseq (String c w) s -> Subseq w s.
Proof.
  induction s as [|d s IH]; intros H; inversion H; subst.
  - now apply Subseq_skip.
  - apply Subseq_skip. now apply IH.
Qed.

(** One round of the loop: either the character is not in [hint], and then
    nothing that starts with it is a subsequence; or it is, and what has to
    be found after it is looked for after its first occurrence. *)
Lemma indexOf_round (hint : string) (c : ascii) :
  (JS.indexOf hint c = (-1)%Z /\ forall w, ~ Subseq (String c w) hint)
  \/ ((0 <= JS.indexOf hint c)%Z /\
      forall w, Subseq (String c w) hint <->
                Subseq w (JS.substr (JS.indexOf hint c + 1) hint)).
Proof.
  induction hint as [|d hint IH]; cbn [JS.indexOf].
  - left. split; [reflexivity|]. intros w H; inversion H.
  - destruct (Ascii.eqb_spec d c) as [->|Hne].
    + right. split; [lia|]. intros w.
      rewrite (substr_next 0 c hint) by lia. rewrite substr_0. split.
      * intros H; inversion H; subst; [assumption | now apply Subseq_tail with c].
      * now apply Subseq_take.
    + destruct IH as [[E N] | [P Q]].
      * left. rewrite E. cbn. split; [reflexivity|].
        intros w H; inversion H; subst; [congruence | now apply (N w)].
      * right. destruct (Z.eqb_spec (JS.indexOf hint c) (-1)); [lia|].
        split; [lia|]. intros w.
        rewrite substr_next by lia. rewrite <- Q. split.
        -- intros H; inversion H; subst; [congruence | assumption].
        -- now apply Subseq_skip.
Qed.

Lemma filterLoop_Subseq (w hint : string) :
  filterLoop (JS.split_chars w) hint = true <-> Subseq w hint.
Proof.
  revert hint; induction w as [|c w IH]; intros hint;
    cbn [JS.split_chars list_ascii_of_string filterLoop].
  - split; [intros _; apply Subseq_empty | reflexivity].
  - destruct (indexOf_round hint c) as [[E N] | [P Q]].
    + rewrite E. cbn. split; [discriminate | intros H; now apply N in H].
    + destruct (Z.eqb_spec (JS.indexOf hint c) (-1)); [lia|].
      unfold JS.split_chars in IH. rewrite IH. symmetry. apply Q.
Qed.

Lemma filterHints_In (W : string) (matches : list Match) (m : Match) :
  In m (filterHints W matches)
  <-> In m matches /\ Subseq (JS.toLowerCase W) (JS.toLowerCase (m1 m)).
Proof.
  unfold filterHints. rewrite filter_In, filterLoop_Subseq. reflexivity.
Qed.

(** C3: [filterHints] keeps a match exactly when the lower-cased written
    text is a subsequence of the lower-cased name: the filter is the test of
    the greedy loop, the order of the matches is kept, and the loop says yes
    exactly for the names of which the written text is a subsequence. *)
Theorem filterHints_keeps_subsequences (W : string) (matches : list Match) :
  filterHints W matches
  = filter (fun m => filterLoop (JS.split_chars (JS.toLowerCase W))
                                (JS.toLowerCase (m1 m))) matches
  /\ (forall hint, filterLoop (JS.split_chars (JS.toLowerCase W)) hint = true
                   <-> Subseq (JS.toLowerCase W) hint)
  /\ (forall m, In m (filterHints W matches)
                <-> In m matches
                    /\ Subseq (JS.toLowerCase W) (JS.toLowerCase (m1 m))).
Proof.
  split; [reflexivity|]. split.
  - intros hint. apply filterLoop_Subseq.
  - intros m. apply filterHints_In.
Qed.

(** C10: with nothing written, [filterHints] gives back its input. *)
Theorem filterHints_empty_is_identity (matches : list Match) :
  filterHints "" matches = matches.
Proof.
  unfold filterHints. simpl.
  induction matches as [|m ms IH]; simpl; [reflexivity | now rewrite IH].
Qed.

(** ** The order on strings *)

Lemma string_leb_refl (a : string) : String.leb a a = true.
Proof. destruct (String.leb_total a a); assumption. Qed.

Lemma string_leb_trans (a b c : string) :
  String.leb a b = true -> String.leb b c = true -> String.leb a c = true.
Proof.
  unfold String.leb. revert b c.
  induction a as [|x a IH]; intros [|y b] [|z c]; simpl;
    try reflexivity; try discriminate.
  unfold Ascii.compare.
  destruct (N.compare_spec (N_of_ascii x) (N_of_ascii y)) as [E1|L1|G1];
    destruct (N.compare_spec (N_of_ascii y) (N_of_ascii z)) as [E2|L2|G2];
    destruct (N.compare_spec (N_of_ascii x) (N_of_ascii z)) as [E3|L3|G3];
    try reflexivity; try discriminate; try lia.
  apply IH.
Qed.

Lemma string_ltb_leb (a b : string) :
  String.ltb a b = false <-> String.leb b a = true.
Proof.
  unfold String.ltb, String.leb. rewrite (String.compare_antisym b a).
  destruct (String.compare a b); simpl; split; congruence.
Qed.

(** ** Sorting *)

Section Sorting.

Context {A : Type}.
Variable cmp : A -> A -> Z.

Lemma sortInsert_perm (x : A) (l : list A) :
  Permutation (sortInsert cmp x l) (x :: l).
Proof.
  induction l as [|y l IH]; simpl; [apply Permutation_refl|].
  destruct (0 <? cmp x y)%Z; [|apply Permutation_refl].
  apply perm_trans with (y :: x :: l); [now apply perm_skip | apply perm_swap].
Qed.

Lemma sort_perm (l : list A) : Permutation (sort cmp l) l.
Proof.
  induction l as [|x l IH]; simpl; [apply perm_nil|].
  apply perm_trans with (x :: sort cmp l);
    [apply sortInsert_perm | now apply perm_skip].
Qed.

Hypothesis precede_total : forall x y, mayPrecede cmp x y \/ mayPrecede cmp y x.
Hypothesis precede_trans : forall x y z, mayPrecede cmp x y -> mayPrecede cmp y z -> mayPrecede cmp x z.

Lemma sortInsert_sorted (x : A) (l : list A) :
  StronglySorted (mayPrecede cmp) l -> StronglySorted (mayPrecede cmp) (sortInsert cmp x l).
Proof.
  induction l as [|y l IH]; intros H; simpl.
  - constructor; constructor.
  - inversion H as [|? ? Hs Hall]; subst.
    destruct (0 <? cmp x y)%Z eqn:E.
    + constructor; [now apply IH|].
      apply Forall_forall. intros z Hz.
      apply (Permutation_in _ (sortInsert_perm x l)) in Hz.
      destruct Hz as [<-|Hz].
      * destruct (precede_total y x) as [B|B]; [exact B|].
        unfold mayPrecede in B. congruence.
      * rewrite Forall_forall in Hall. now apply Hall.
    + constructor; [exact H|].
      constructor; [exact E|].
      rewrite Forall_forall in Hall |- *. intros z Hz.
      apply precede_trans with y; [exact E | now apply Hall].
Qed.

Lemma sort_sorted (l : list A) : StronglySorted (mayPrecede cmp) (sort cmp l).
Proof.
  induction l as [|x l IH]; simpl; [constructor | now apply sortInsert_sorted].
Qed.

(** Stability: the elements of a class whose members may stand before
    each other come out in the order in which they went in. *)
Variable P : A -> bool.
Hypothesis P_ties : forall x y, P x = true -> P y = true -> mayPrecede cmp x y.

Lemma sortInsert_filter (x : A) (l : list A) :
  filter P (sortInsert cmp x l) = filter P (x :: l).
Proof.
  induction l as [|y l IH]; [reflexivity|].
  cbn [sortInsert]. destruct (0 <? cmp x y)%Z eqn:E; [|reflexivity].
  cbn [filter] in *. rewrite IH.
  destruct (P x) eqn:Px, (P y) eqn:Py; try reflexivity.
  specialize (P_ties x y Px Py). unfold mayPrecede in P_ties. congruence.
Qed.

Lemma sort_filter (l : list A) : filter P (sort cmp l) = filter P l.
Proof.
  induction l as [|x l IH]; [reflexivity|].
  cbn [sort fold_right]. fold (sort cmp l).
  rewrite sortInsert_filter. cbn [filter]. now rewrite IH.
Qed.

End Sorting.

(** The comparison function orders the matches by their keys. *)
Lemma compareFn_before (x y : Match) :
  mayPrecede compareFn x y <-> keyLe (sortKey x) (sortKey y).
Proof.
  unfold mayPrecede, compareFn, JS.gt, JS.lt, keyLe. fold (sortKey x) (sortKey y).
  rewrite <- string_ltb_leb.
  destruct (String.ltb (sortKey y) (sortKey x)); [split; discriminate|].
  destruct (String.ltb (sortKey x) (sortKey y)); split; reflexivity.
Qed.

Lemma sort_compareFn_sorted (l : list Match) :
  StronglySorted (fun a b => keyLe (sortKey a) (sortKey b)) (sort compareFn l).
Proof.
  assert (H : StronglySorted (mayPrecede compareFn) (sort compareFn l)).
  { apply sort_sorted.
    - intros x y. rewrite !compareFn_before. apply String.leb_total.
    - intros x y z. rewrite !compareFn_before. apply string_leb_trans. }
  induction H as [|x l' Hs IH Hall]; constructor; [exact IH|].
  rewrite Forall_forall in Hall |- *. intros y Hy.
  apply compareFn_before. now apply Hall.
Qed.

Lemma sort_compareFn_stable (k : string) (l : list Match) :
  filter (hasKey k) (sort compareFn l) = filter (hasKey k) l.
Proof.
  apply sort_filter. intros x y Hx Hy. apply compareFn_before.
  unfold hasKey in Hx, Hy. apply String.eqb_eq in Hx, Hy.
  rewrite Hx, Hy. apply string_leb_refl.
Qed.

(** ** processHints *)

Lemma StronglySorted_map_m1 (l : list Match) :
  StronglySorted (fun a b => keyLe (sortKey a) (sortKey b)) l ->
  StronglySorted (fun a b => keyLe (JS.toLowerCase a) (JS.toLowerCase b))
                 (map m1 l).
Proof.
  induction 1 as [|x l Hs IH Hall]; simpl; constructor; [exact IH|].
  rewrite Forall_forall in Hall |- *. intros y Hy.
  apply in_map_iff in Hy. destruct Hy as [m [<- Hm]]. now apply Hall.
Qed.

Lemma processHints_run (matches : list Match) (s : LESSHint) :
  processHints matches s
  = Returned tt
      (set_hintsHTML (map render (sort compareFn matches))
         (set_hints (map m1 (sort compareFn matches)) s))
      [].
Proof. reflexivity. Qed.

(** C4: after [processHints] the names in [hints] are in ascending order
    of their lower-case forms, matches with the same lower-case name have
    kept their order, and [hints] and [hintsHTML] have the same length and
    hold, index by index, the name of a match and the rendering of that
    same match, its name followed by its value. *)
Theorem processHints_sorted_and_aligned (matches : list Match) (s : LESSHint) :
  exists sorted s',
    processHints matches s = Returned tt s' []
    /\ Permutation sorted matches
    /\ StronglySorted (fun a b => keyLe (sortKey a) (sortKey b)) sorted
    /\ (forall k, filter (hasKey k) sorted = filter (hasKey k) matches)
    /\ hints s' = map m1 sorted
    /\ StronglySorted
         (fun a b => keyLe (JS.toLowerCase a) (JS.toLowerCase b)) (hints s')
    /\ length (hints s') = length (hintsHTML s')
    /\ (forall i name,
          nth_error (hints s') i = Some name ->
          exists m,
            nth_error sorted i = Some m /\ name = m1 m
            /\ nth_error (hintsHTML s') i
               = Some (m1 m ++ "<span style='color:#a0a0a0; margin-left: 10px'>"
                            ++ m2 m ++ "</span>")%string).
Proof.
  exists (sort compareFn matches).
  eexists. split; [apply processHints_run|]. cbn [hints hintsHTML set_hintsHTML set_hints].
  split; [apply sort_perm|].
  split; [apply sort_compareFn_sorted|].
  split; [intros k; apply sort_compareFn_stable|].
  split; [reflexivity|].
  split; [apply StronglySorted_map_m1, sort_compareFn_sorted|].
  split; [now rewrite !length_map|].
  intros i name H. rewrite nth_error_map in H.
  destruct (nth_error (sort compareFn matches) i) as [m|] eqn:E; [|discriminate].
  exists m. inversion H; subst. split; [reflexivity|]. split; [reflexivity|].
  rewrite nth_error_map, E. reflexivity.
Qed.

(** ** The character classes of the two patterns

    With the [i] flag a character is compared through its canonical form;
    for the classes used here that changes nothing. *)

Lemma in_allChars (c : ascii) : In c allChars.
Proof.
  unfold allChars. rewrite <- (ascii_N_embedding c) at 1.
  rewrite <- (N2Nat.id (N_of_ascii c)).
  apply (in_map (fun n => ascii_of_N (N.of_nat n))), in_seq.
  pose proof (N_ascii_bounded c). lia.
Qed.

Lemma by_table (f g : ascii -> bool) :
  forallb (fun c => Bool.eqb (f c) (g c)) allChars = true ->
  forall c, f c = g c.
Proof.
  intros H c. rewrite forallb_forall in H.
  apply Bool.eqb_prop, H, in_allChars.
Qed.

Lemma by_table_implies (f g : ascii -> bool) :
  forallb (fun c => implb (f c) (g c)) allChars = true ->
  forall c, f c = true -> g c = true.
Proof.
  intros H c Hf. rewrite forallb_forall in H.
  specialize (H c (in_allChars c)). now rewrite Hf in H.
Qed.

Ltac by_all_chars := apply by_table; vm_compute; reflexivity.

Lemma class_sigil (c : ascii) :
  atomMatches true (One (Lit "@")) c = Ascii.eqb c "@".
Proof. revert c. by_all_chars. Qed.

Lemma class_colon (c : ascii) :
  atomMatches true (One (Lit ":")) c = Ascii.eqb c ":".
Proof. revert c. by_all_chars. Qed.

Lemma class_name (c : ascii) :
  atomMatches true (AnyOf [WordChar; Lit "-"]) c = nameChar c.
Proof. revert c. by_all_chars. Qed.

Lemma class_space (c : ascii) :
  atomMatches true (One WhiteSpace) c = isSpace c.
Proof. revert c. by_all_chars. Qed.

Lemma class_value (c : ascii) :
  atomMatches true (NoneOf [Lit "010"; Lit ";"]) c = valueChar c.
Proof. revert c. by_all_chars. Qed.

Lemma class_chars (c : ascii) :
  atomMatches true chars_atom c = allowedChar c.
Proof. revert c. by_all_chars. Qed.

(** A name has no sigil in it, whatever the case, and no [<]. *)
Lemma nameChar_lower_not_sigil (c : ascii) :
  nameChar c = true -> Ascii.eqb (JS.lowerChar c) "@" = false.
Proof.
  intros H. apply negb_true_iff. revert c H.
  apply by_table_implies. vm_compute. reflexivity.
Qed.

Lemma nameChar_not_angle (c : ascii) :
  nameChar c = true -> Ascii.eqb c "<" = false.
Proof.
  intros H. apply negb_true_iff. revert c H.
  apply by_table_implies. vm_compute. reflexivity.
Qed.

(** ** The matcher *)

Section Star.

Context {R : Type}.
Variable p : ascii -> bool.
Variable k : string -> option R.

(** A result of a repetition comes from a run of characters of the class
    followed by a place where the rest of the pattern matches; and no
    longer run would have done, as the longer ones are tried first. *)
Lemma star_Some (s : string) (r : R) :
  star p k s = Some r ->
  exists a b,
    s = (a ++ b)%string /\ allOf p a = true /\ k b = Some r
    /\ (forall c b', b = String c b' -> p c = true -> star p k b' = None).
Proof.
  induction s as [|c s IH]; cbn [star]; intros H.
  - exists "", "". repeat split; try assumption. discriminate.
  - destruct (p c) eqn:Pc.
    + destruct (star p k s) as [r'|] eqn:E.
      * inversion H; subst r'. destruct (IH eq_refl) as (a & b & -> & Ha & Hk & G).
        exists (String c a), b. cbn [allOf append]. rewrite Pc, Ha. auto.
      * exists "", (String c s). repeat split; try assumption.
        intros c' b' Hb _. now inversion Hb; subst.
    + exists "", (String c s). repeat split; try assumption.
      intros c' b' Hb Hp. inversion Hb; subst. congruence.
Qed.

(** A repetition fails only when the rest of the pattern matches after no
    run of characters of the class. *)
Lemma star_None (s : string) :
  star p k s = None ->
  forall a b, s = (a ++ b)%string -> allOf p a = true -> k b = None.
Proof.
  induction s as [|c s IH]; cbn [star]; intros H a b E Ha.
  - destruct a; [simpl in E; now subst | discriminate].
  - destruct a as [|x a]; simpl in E.
    + subst b. destruct (p c); [|assumption].
      destruct (star p k s); [discriminate | assumption].
    + inversion E; subst x s. cbn [allOf] in Ha.
      apply andb_true_iff in Ha. destruct Ha as [Pc Ha]. rewrite Pc in H.
      destruct (star p k (a ++ b)) eqn:E'; [discriminate|].
      now apply (IH eq_refl a b).
Qed.

Lemma star_never_None (s : string) :
  (forall s', k s' <> None) -> star p k s <> None.
Proof.
  intros T. induction s as [|c s IH]; cbn [star]; [apply T|].
  destruct (p c); [|apply T]. destruct (star p k s); [discriminate | apply T].
Qed.

End Star.

Lemma length_cons_append_sub (c : ascii) (a b : string) :
  String.length (String c (a ++ b)) - String.length b = S (String.length a).
Proof. cbn [String.length]. rewrite length_append. lia. Qed.

Lemma take_cons_append (c : ascii) (a b : string) :
  JS.take (String.length (String c (a ++ b)) - String.length b)
          (String c (a ++ b)) = String c a.
Proof.
  rewrite length_cons_append_sub.
  change (String c (a ++ b)) with (String c a ++ b)%string.
  apply (take_length_append (String c a) b).
Qed.

Lemma ascii_eqb_true (c d : ascii) : Ascii.eqb c d = true -> c = d.
Proof. apply Ascii.eqb_eq. Qed.

#[local] Arguments atomMatches : simpl never.

(** The pattern, node by node, at the start of [s]. *)
Lemma matchHere_Some (s rest : string) (caps : list string) :
  matchHere true regex_nodes s = Some (rest, caps) ->
  exists name ws1 ws2 value,
    s = ("@" ++ name ++ ws1 ++ ":" ++ ws2 ++ value ++ rest)%string
    /\ caps = [name; value]
    /\ name <> "" /\ allOf nameChar name = true
    /\ allOf isSpace ws1 = true /\ allOf isSpace ws2 = true
    /\ value <> "" /\ allOf valueChar value = true
    /\ match rest with
       | EmptyString => True
       | String c _ => valueChar c = false
       end.
Proof.
  unfold matchHere, regex_nodes. cbn [matchSeq matchNode]. intros H.
  destruct s as [|c0 s]; [discriminate|].
  rewrite class_sigil in H.
  destruct (Ascii.eqb c0 "@") eqn:E0; [|discriminate].
  apply ascii_eqb_true in E0; subst c0.
  destruct s as [|c1 s]; [discriminate|].
  rewrite class_name in H.
  destruct (nameChar c1) eqn:E1; [|discriminate].
  apply star_Some in H. destruct H as (n & s1 & -> & Hn & H & _).
  cbn [app] in H. rewrite take_cons_append in H.
  apply star_Some in H. destruct H as (ws1 & s2 & -> & Hw1 & H & _).
  destruct s2 as [|c2 s2]; [discriminate|].
  rewrite class_colon in H.
  destruct (Ascii.eqb c2 ":") eqn:E2; [|discriminate].
  apply ascii_eqb_true in E2; subst c2.
  apply star_Some in H. destruct H as (ws2 & s3 & -> & Hw2 & H & _).
  destruct s3 as [|c3 s3]; [discriminate|].
  rewrite class_value in H.
  destruct (valueChar c3) eqn:E3; [|discriminate].
  apply star_Some in H. destruct H as (v & s4 & -> & Hv & H & G).
  rewrite take_cons_append in H. cbn [app] in H. inversion H; subst rest caps.
  exists (String c1 n), ws1, ws2, (String c3 v).
  split.
  { reflexivity. }
  split; [reflexivity|].
  split; [discriminate|].
  split; [cbn [allOf]; rewrite E1; simpl;
          rewrite <- Hn; apply allOf_ext; intros; symmetry; apply class_name|].
  split; [rewrite <- Hw1; apply allOf_ext; intros; symmetry; apply class_space|].
  split; [rewrite <- Hw2; apply allOf_ext; intros; symmetry; apply class_space|].
  split; [discriminate|].
  split; [cbn [allOf]; rewrite E3; simpl;
          rewrite <- Hv; apply allOf_ext; intros; symmetry; apply class_value|].
  destruct s4 as [|c4 s4]; [exact I|].
  rewrite <- class_value. destruct (atomMatches true _ c4) eqn:E4; [|reflexivity].
  exfalso. specialize (G c4 s4 eq_refl E4). revert G.
  apply star_never_None. discriminate.
Qed.

Lemma matchHere_None (s : string) :
  matchHere true regex_nodes s = None ->
  forall whole name value rest,
    s = (whole ++ rest)%string -> ~ Declaration whole name value.
Proof.
  intros H whole name value rest -> (ws1 & ws2 & -> & Hne & Hn & Hw1 & Hw2 & Hve & Hv).
  destruct name as [|c1 n]; [congruence|].
  destruct value as [|c3 v]; [congruence|].
  cbn [allOf] in Hn, Hv.
  apply andb_true_iff in Hn, Hv. destruct Hn as [E1 Hn], Hv as [E3 Hv].
  revert H. unfold matchHere, regex_nodes. cbn [matchSeq matchNode append].
  rewrite class_sigil. cbn [Ascii.eqb Bool.eqb].
  rewrite class_name, E1.
  rewrite !append_assoc. cbn [append]. rewrite !append_assoc. intros H.
  eapply star_None in H;
    [| reflexivity
     | apply (allOf_class _ _ _ class_name Hn)].
  cbn beta in H.
  eapply star_None in H;
    [| reflexivity
     | apply (allOf_class _ _ _ class_space Hw1)].
  cbn beta iota in H.
  rewrite class_colon in H. cbn [Ascii.eqb Bool.eqb] in H.
  eapply star_None in H;
    [| reflexivity
     | apply (allOf_class _ _ _ class_space Hw2)].
  cbn [append] in H. rewrite class_value, E3 in H.
  revert H. apply star_never_None. discriminate.
Qed.

Lemma take_append_sub (a b : string) :
  JS.take (String.length (a ++ b) - String.length b) (a ++ b) = a.
Proof.
  rewrite length_append.
  replace (String.length a + String.length b - String.length b)
    with (String.length a) by lia.
  apply take_length_append.
Qed.

(** What a match at the start of [s] is, in the words of the
    specification. *)
Lemma matchHere_Declaration (s rest : string) (caps : list string) :
  matchHere true regex_nodes s = Some (rest, caps) ->
  exists whole name value,
    s = (whole ++ rest)%string /\ caps = [name; value]
    /\ Declaration whole name value
    /\ match rest with
       | EmptyString => True
       | String c _ => valueChar c = false
       end.
Proof.
  intros H. apply matchHere_Some in H.
  destruct H as (name & ws1 & ws2 & value & -> & -> & H1 & H2 & H3 & H4 & H5 & H6 & H7).
  exists ("@" ++ name ++ ws1 ++ ":" ++ ws2 ++ value)%string, name, value.
  split.
  { repeat (rewrite append_assoc || cbn [append]). reflexivity. }
  split; [reflexivity|]. split; [|exact H7].
  exists ws1, ws2. auto 10.
Qed.

(** ** The search of [exec] *)

Lemma search_unfold (s : string) (i : nat) :
  search true regex_nodes s i
  = match matchHere true regex_nodes s with
    | Some (rest, caps) =>
        Some (i, JS.take (String.length s - String.length rest) s, caps)
    | None =>
        match s with
        | EmptyString => None
        | String _ s' => search true regex_nodes s' (S i)
        end
    end.
Proof. destruct s; reflexivity. Qed.

Lemma search_Some (s : string) (i j : nat) (whole : string) (caps : list string) :
  search true regex_nodes s i = Some (j, whole, caps) ->
  exists d rest,
    j = i + d /\ d <= String.length s
    /\ (forall d', d' < d -> matchHere true regex_nodes (JS.drop d' s) = None)
    /\ matchHere true regex_nodes (JS.drop d s) = Some (rest, caps)
    /\ JS.drop d s = (whole ++ rest)%string.
Proof.
  revert i. induction s as [|c s IH]; intros i; rewrite search_unfold.
  - destruct (matchHere true regex_nodes "") as [[rest caps']|] eqn:E;
      [|discriminate].
    apply matchHere_Some in E. destruct E as (? & ? & ? & ? & E & _). discriminate.
  - destruct (matchHere true regex_nodes (String c s)) as [[rest caps']|] eqn:E.
    + intros H.
      assert (Hj : j = i) by congruence.
      assert (Hc : caps = caps') by congruence.
      assert (Hw : whole = JS.take (String.length (String c s)
                                    - String.length rest) (String c s))
        by congruence.
      clear H. subst j caps. exists 0, rest.
      change (JS.drop 0 (String c s)) with (String c s).
      split; [lia|]. split; [lia|]. split; [intros; lia|]. split; [exact E|].
      apply matchHere_Declaration in E.
      destruct E as (w & _ & _ & E & _).
      rewrite Hw, E, take_append_sub. reflexivity.
    + intros H. apply IH in H. destruct H as (d & rest & -> & Hd & Hn & Hm & Hw).
      exists (S d), rest. cbn [JS.drop String.length].
      split; [lia|]. split; [lia|]. split; [|split; assumption].
      intros [|d'] Hlt; cbn [JS.drop]; [exact E | apply Hn; lia].
Qed.

Lemma search_None (s : string) (i : nat) :
  search true regex_nodes s i = None ->
  forall d, d <= String.length s ->
            matchHere true regex_nodes (JS.drop d s) = None.
Proof.
  revert i. induction s as [|c s IH]; intros i; rewrite search_unfold.
  - destruct (matchHere true regex_nodes "") as [[rest caps']|] eqn:E;
      [discriminate|].
    intros _ d Hd. now destruct d.
  - destruct (matchHere true regex_nodes (String c s)) as [[rest caps']|] eqn:E;
      [discriminate|].
    intros H [|d] Hd; cbn [JS.drop]; [exact E|].
    apply (IH _ H). cbn [String.length] in Hd. lia.
Qed.

Lemma no_match_no_occurrence (text : string) (i : nat) :
  matchHere true regex_nodes (JS.drop i text) = None -> ~ OccursAt text i.
Proof.
  intros H [_ (whole & name & value & rest & E & D)].
  exact (matchHere_None _ H whole name value rest E D).
Qed.

Lemma Declaration_length (whole name value : string) :
  Declaration whole name value -> 4 <= String.length whole.
Proof.
  intros (ws1 & ws2 & -> & Hn & _ & _ & _ & Hv & _).
  destruct name; [congruence|]. destruct value; [congruence|].
  cbn [append String.length]. rewrite !length_append. cbn [String.length].
  rewrite !length_append. cbn [String.length]. lia.
Qed.

(** [exec] finds the first declaration that starts at or after
    [lastIndex], and moves [lastIndex] to its end. *)
Lemma exec_Some (lastIndex : nat) (text : string) r (lastIndex' : nat) :
  exec true regex_nodes lastIndex text = (Some r, lastIndex') ->
  exists m,
    asMatch r = Some m
    /\ lastIndex <= index m
    /\ (forall i, lastIndex <= i < index m -> ~ OccursAt text i)
    /\ MatchIn text m
    /\ lastIndex' = index m + String.length (m0 m).
Proof.
  unfold exec. destruct (Nat.ltb_spec (String.length text) lastIndex) as [L|L];
    [discriminate|].
  destruct (search true regex_nodes (JS.drop lastIndex text) lastIndex)
    as [[[j whole] caps]|] eqn:E; [|discriminate].
  intros H; inversion H; subst r lastIndex'; clear H.
  apply search_Some in E. destruct E as (d & rest & -> & Hd & Hn & Hm & Hw).
  rewrite drop_drop in Hm, Hw. rewrite length_drop in Hd.
  apply matchHere_Declaration in Hm.
  destruct Hm as (w & name & value & E & -> & D & G).
  assert (w = whole) as ->.
  { apply (append_inv_tail w whole rest). congruence. }
  exists (mkMatch whole name value (lastIndex + d)). cbn [asMatch index m0].
  split; [reflexivity|]. split; [lia|]. split.
  { intros i Hi. apply no_match_no_occurrence.
    replace i with (lastIndex + (i - lastIndex)) by lia.
    rewrite <- drop_drop. apply Hn. lia. }
  split; [|reflexivity].
  unfold MatchIn. cbn [index m0 m1 m2].
  pose proof (f_equal String.length E) as EL.
  rewrite length_drop, length_append in EL.
  split; [lia|]. split; [now rewrite E, take_length_append|].
  split; [exact D|].
  replace (lastIndex + d + String.length whole)
    with ((lastIndex + d) + String.length whole) by lia.
  rewrite <- drop_drop, E, drop_length_append. exact G.
Qed.

Lemma exec_None (lastIndex : nat) (text : string) (lastIndex' : nat) :
  exec true regex_nodes lastIndex text = (None, lastIndex') ->
  lastIndex' = 0 /\ forall i, lastIndex <= i -> ~ OccursAt text i.
Proof.
  unfold exec. destruct (Nat.ltb_spec (String.length text) lastIndex) as [L|L].
  - intros H; inversion H. split; [reflexivity|].
    intros i Hi [Hlen _]. lia.
  - destruct (search true regex_nodes (JS.drop lastIndex text) lastIndex)
      as [[[j whole] caps]|] eqn:E; [discriminate|].
    intros H; inversion H. split; [reflexivity|].
    intros i Hi Ho. pose proof Ho as [Hlen _]. revert Ho.
    apply no_match_no_occurrence.
    replace i with (lastIndex + (i - lastIndex)) by lia.
    rewrite <- drop_drop. apply (search_None _ _ E).
    rewrite length_drop. lia.
Qed.

(** ** getAll *)

(** The loop ends before its bound is reached, with [lastIndex] back at 0,
    and what it has collected is the scan of the text. *)
Lemma getAllLoop_unfold (fuel lastIndex : nat) (text : string) :
  getAllLoop (S fuel) lastIndex text
  = match exec true regex_nodes lastIndex text with
    | (None, lastIndex') => Some ([], lastIndex')
    | (Some r, lastIndex') =>
        match asMatch r, getAllLoop fuel lastIndex' text with
        | Some m, Some (matches, lastIndex'') => Some (m :: matches, lastIndex'')
        | _, _ => None
        end
    end.
Proof. reflexivity. Qed.

Lemma getAllLoop_Scan (fuel lastIndex : nat) (text : string) :
  String.length text <= lastIndex + fuel ->
  exists matches,
    getAllLoop (S fuel) lastIndex text = Some (matches, 0)
    /\ Scan text lastIndex matches.
Proof.
  revert lastIndex. induction fuel as [|fuel IH]; intros lastIndex Hf;
    rewrite getAllLoop_unfold;
    destruct (exec true regex_nodes lastIndex text) as [[r|] lastIndex'] eqn:E.
  - apply exec_Some in E.
    destruct E as (m & _ & Hle & _ & (Hlen & _ & D & _) & _).
    apply Declaration_length in D. lia.
  - apply exec_None in E. destruct E as [-> Hno].
    exists []. split; [reflexivity|]. now apply Scan_end.
  - apply exec_Some in E.
    destruct E as (m & -> & Hle & Hgap & Hm & ->).
    pose proof Hm as (Hlen & _ & D & _).
    apply Declaration_length in D.
    destruct (IH (index m + String.length (m0 m))) as (ms & -> & Hs); [lia|].
    exists (m :: ms). split; [reflexivity|].
    now apply Scan_next.
  - apply exec_None in E. destruct E as [-> Hno].
    exists []. split; [reflexivity|]. now apply Scan_end.
Qed.

Lemma Scan_MatchIn (text : string) (from : nat) (ms : list Match) :
  Scan text from ms -> Forall (MatchIn text) ms.
Proof. induction 1; constructor; assumption. Qed.

Lemma Scan_from (text : string) (from : nat) (ms : list Match) :
  Scan text from ms -> Forall (fun m => from <= index m) ms.
Proof.
  induction 1 as [|from m ms Hle Hgap Hm Hs IH]; constructor; [assumption|].
  eapply Forall_impl; [|exact IH]. cbn beta. intros; lia.
Qed.

Lemma Scan_ordered (text : string) (from : nat) (ms : list Match) :
  Scan text from ms ->
  StronglySorted (fun a b => index a + String.length (m0 a) <= index b) ms.
Proof.
  induction 1 as [|from m ms Hle Hgap Hm Hs IH]; constructor; [assumption|].
  now apply Scan_from in Hs.
Qed.

Lemma Scan_covers (text : string) (from : nat) (ms : list Match) :
  Scan text from ms ->
  forall i, from <= i -> OccursAt text i ->
    exists m, In m ms /\ index m <= i < index m + String.length (m0 m).
Proof.
  induction 1 as [from Hno|from m ms Hle Hgap Hm Hs IH]; intros i Hi Ho.
  - now apply Hno in Ho.
  - destruct (Nat.lt_ge_cases i (index m)) as [L|G].
    + exfalso. apply (Hgap i); [lia | assumption].
    + destruct (Nat.lt_ge_cases i (index m + String.length (m0 m))) as [L|G'].
      * exists m. split; [now left | lia].
      * destruct (IH i G' Ho) as (m' & Hin & Hr).
        exists m'. split; [now right | assumption].
Qed.

Lemma getAll_run (text : string) (s : LESSHint) (matches : list Match) :
  getAll (regex_lastIndex s) text = Some (matches, 0) ->
  regex_lastIndex s = 0 ->
  getAll_ text s = Returned matches s [].
Proof.
  intros H Z. unfold getAll_, bind, this. rewrite H.
  destruct s; cbn in *. subst. reflexivity.
Qed.

(** C8: for every text [getAll] comes back, with the list of the
    declarations of the text in the order of the text: each entry is a
    declaration found at its index, an entry starts at or after the end of
    the one before, and every position at which a declaration starts is
    either the index of an entry or lies inside an entry found earlier.
    Nothing is remembered between calls, [lastIndex] being 0 again at the
    end, and no entry is dropped for having the name of another. *)
Theorem getAll_all_declarations_in_order (text : string) :
  exists matches,
    getAll 0 text = Some (matches, 0)
    /\ Scan text 0 matches
    /\ Forall (MatchIn text) matches
    /\ StronglySorted
         (fun a b => index a + String.length (m0 a) <= index b) matches
    /\ (forall i, OccursAt text i ->
          exists m, In m matches
                    /\ index m <= i < index m + String.length (m0 m))
    /\ (forall s, regex_lastIndex s = 0 ->
          getAll_ text s = Returned matches s []).
Proof.
  destruct (getAllLoop_Scan (String.length text) 0 text) as (ms & G & Sc);
    [lia|].
  exists ms. split; [exact G|]. split; [exact Sc|].
  split; [exact (Scan_MatchIn _ _ _ Sc)|].
  split; [exact (Scan_ordered _ _ _ Sc)|].
  split.
  - intros i Ho. apply (Scan_covers _ _ _ Sc); [lia | exact Ho].
  - intros s Z. apply getAll_run; [now rewrite Z | exact Z].
Qed.

(** The same name declared twice is found twice. *)
Lemma getAll_keeps_duplicates :
  exists matches,
    getAll 0 "@a: 1;@a: 2;" = Some (matches, 0)
    /\ matches = [mkMatch "@a: 1" "a" "1" 0; mkMatch "@a: 2" "a" "2" 6]
    /\ (exists m, In m matches /\ index m <= 6 < index m + String.length (m0 m))
    /\ getAll_ "@a: 1;@a: 2;" new_LESSHint = Returned matches new_LESSHint [].
Proof.
  destruct (getAll_all_declarations_in_order "@a: 1;@a: 2;")
    as (ms & G & _ & _ & _ & Cov & Run).
  exists ms. split; [exact G|].
  split; [vm_compute in G; congruence|].
  split.
  - apply Cov. split; [cbn; lia|].
    exists "@a: 2", "a", "2", ";". split; [reflexivity|].
    exists "", " ". repeat split; discriminate.
  - apply Run. reflexivity.
Defined.

(** ** A sigil in the written text *)

Lemma Subseq_allOf (p : ascii -> bool) (w s : string) :
  Subseq w s -> allOf p s = true -> allOf p w = true.
Proof.
  induction 1 as [s|c w s H IH|c w s H IH]; cbn [allOf]; intros Hs.
  - reflexivity.
  - apply andb_true_iff in Hs. destruct Hs as [Pc Hs]. now rewrite Pc, IH.
  - apply andb_true_iff in Hs. destruct Hs as [_ Hs]. now apply IH.
Qed.

Lemma toLowerCase_name_no_sigil (name : string) :
  allOf nameChar name = true -> allOf notSigil (JS.toLowerCase name) = true.
Proof.
  induction name as [|c name IH]; cbn [allOf JS.toLowerCase]; [reflexivity|].
  intros H. apply andb_true_iff in H. destruct H as [Pc H].
  unfold notSigil at 1. now rewrite (nameChar_lower_not_sigil c Pc), IH.
Qed.

Lemma toLowerCase_keeps_sigil (W : string) :
  In "@"%char (JS.split_chars W) -> allOf notSigil (JS.toLowerCase W) = false.
Proof.
  unfold JS.split_chars.
  induction W as [|c W IH]; cbn [list_ascii_of_string In allOf JS.toLowerCase];
    [contradiction|].
  intros [->|H]; [reflexivity|].
  rewrite (IH H). apply andb_false_r.
Qed.

(** Names are made of letters, digits, underscores and hyphens; so a
    written text with a sigil in it is a subsequence of no name, and the
    filter keeps nothing. *)
Lemma sigil_rejects (W : string) (matches : list Match) :
  In "@"%char (JS.split_chars W) ->
  Forall (fun m => allOf nameChar (m1 m) = true) matches ->
  filterHints W matches = [].
Proof.
  intros HW Hn.
  destruct (filterHints W matches) as [|m l] eqn:E; [reflexivity|].
  assert (Hin : In m (filterHints W matches)) by (rewrite E; now left).
  apply filterHints_In in Hin. destruct Hin as [Hin Hs].
  rewrite Forall_forall in Hn. specialize (Hn m Hin).
  apply toLowerCase_name_no_sigil in Hn.
  apply (Subseq_allOf notSigil) in Hs; [|exact Hn].
  rewrite (toLowerCase_keeps_sigil W HW) in Hs. discriminate.
Qed.

Lemma MatchIn_name (text : string) (m : Match) :
  MatchIn text m -> allOf nameChar (m1 m) = true.
Proof. intros (_ & _ & (ws1 & ws2 & _ & _ & H & _) & _). exact H. Qed.

Lemma getAll_names (lastIndex : nat) (text : string) (matches : list Match)
      (lastIndex' : nat) :
  getAll lastIndex text = Some (matches, lastIndex') ->
  Forall (fun m => allOf nameChar (m1 m) = true) matches.
Proof.
  intros H.
  destruct (getAllLoop_Scan (String.length text) lastIndex text)
    as (ms & G & Sc); [lia|].
  unfold getAll in H. rewrite G in H. inversion H; subst.
  apply Scan_MatchIn in Sc. eapply Forall_impl; [|exact Sc].
  intros m. apply MatchIn_name.
Qed.

(** ** The first example of the specification *)

Lemma getAll_exampleText : getAll 0 exampleText = Some (exampleMatches, 0).
Proof. vm_compute. reflexivity. Qed.

(** C1, as stated, fails: with ["@c"] written since the start the filter
    keeps neither of the two declarations of the example, so that the
    sorted list of names is empty. *)
Lemma example_with_sigil_keeps_nothing :
  getAll 0 exampleText = Some (exampleMatches, 0)
  /\ map m1 exampleMatches = ["color"; "bg-color"]
  /\ filterHints "@c" exampleMatches = []
  /\ map m1 (sort compareFn (filterHints "@c" exampleMatches))
     <> ["bg-color"; "color"].
Proof.
  split; [apply getAll_exampleText|]. split; [reflexivity|].
  split; [vm_compute; reflexivity|]. vm_compute. discriminate.
Qed.

(** C1, amended: in the example, with ["c"] written since the start (the
    text after the sigil) the filter keeps both declarations and the sorted
    names are ["bg-color"; "color"]. A sigil in the written text is not
    passed over: for every text, a written text with a sigil in it makes the
    filter reject every declaration found. *)
Theorem example_without_sigil_keeps_both :
  getAll 0 exampleText = Some (exampleMatches, 0)
  /\ map m1 exampleMatches = ["color"; "bg-color"]
  /\ filterHints "c" exampleMatches = exampleMatches
  /\ (forall s, exists s',
        processHints (filterHints "c" exampleMatches) s = Returned tt s' []
        /\ hints s' = ["bg-color"; "color"])
  /\ (forall text W matches lastIndex,
        getAll 0 text = Some (matches, lastIndex) ->
        In "@"%char (JS.split_chars W) ->
        filterHints W matches = []).
Proof.
  split; [apply getAll_exampleText|]. split; [reflexivity|].
  split; [vm_compute; reflexivity|]. split.
  - intros s. eexists. split; [apply processHints_run|].
    vm_compute. reflexivity.
  - intros text W matches lastIndex G HW.
    apply sigil_rejects; [exact HW | exact (getAll_names _ _ _ _ G)].
Qed.

Lemma example_without_sigil_witness :
  filterHints "c" exampleMatches = exampleMatches
  /\ filterHints "@c" exampleMatches = [].
Proof.
  destruct example_without_sigil_keeps_both as (G & _ & K & _ & R).
  split; [exact K|].
  apply (R exampleText "@c" exampleMatches 0); [exact G|].
  cbn. left. reflexivity.
Defined.

(** ** The methods, run *)

Lemma hasHints_run (host : Host) (c : option string) (s : LESSHint) :
  hasHints host c s
  = Returned
      (match c with
       | Some c => if JS.truthy c then String.eqb c (implicitChar s) else false
       | None => false
       end)
      (set_startPos (getCursorPos host) (set_editor s))
      [GetCursorPos].
Proof. reflexivity. Qed.

Lemma validPosition_run (host : Host) (c : option string) (s : LESSHint) :
  validPosition host c s
  = if invalidChar c then Returned false s []
    else if editor s then
      match startPos s with
      | Some start =>
          let cursorPos := getCursorPos host in
          if (line cursorPos =? line start)%nat
             && (ch start <=? ch cursorPos)%nat
          then Returned true
                 (set_writtenSinceStart (getRange host start cursorPos) s)
                 [GetCurrentDocument; GetCursorPos; GetRange start cursorPos]
          else Returned false s [GetCurrentDocument; GetCursorPos]
      | None => Thrown s [GetCurrentDocument; GetCursorPos]
      end
    else Thrown s [GetCurrentDocument].
Proof.
  unfold validPosition. destruct (invalidChar c); [reflexivity|].
  destruct s as [ic li hs hh w [start|] [|]]; cbn; try reflexivity.
  destruct ((line (getCursorPos host) =? line start)%nat
            && (ch start <=? ch (getCursorPos host))%nat); reflexivity.
Qed.

Lemma insertHint_run (host : Host) (hint : string) (s : LESSHint) :
  insertHint host hint s
  = if editor s then
      Returned tt s
        [GetCurrentDocument; GetCursorPos;
         ReplaceRange (JS.arrayGet (hints s) (JS.arrayIndexOf (hintsHTML s) hint))
                      (startPos s) (getCursorPos host)]
    else Thrown s [GetCurrentDocument].
Proof. destruct s as [ic li hs hh w sp [|]]; reflexivity. Qed.

Lemma getAll_total (lastIndex : nat) (text : string) :
  exists matches, getAll lastIndex text = Some (matches, 0).
Proof.
  destruct (getAllLoop_Scan (String.length text) lastIndex text)
    as (ms & G & _); [lia|].
  now exists ms.
Qed.

Lemma getHints_run (host : Host) (c : option string) (s : LESSHint)
      (start : Pos) (matches : list Match) :
  invalidChar c = false ->
  editor s = true ->
  startPos s = Some start ->
  ((line (getCursorPos host) =? line start)%nat
   && (ch start <=? ch (getCursorPos host))%nat) = true ->
  getAll (regex_lastIndex s) (getText host) = Some (matches, 0) ->
  let written := getRange host start (getCursorPos host) in
  getHints host c s
  = Returned
      (Some {| response_hints := map render (hintsFor written matches);
               response_match := None;
               selectInitial := true;
               handleWideResults := false |})
      (set_hintsHTML (map render (hintsFor written matches))
         (set_hints (map m1 (hintsFor written matches))
            (set_lastIndex 0 (set_writtenSinceStart written s))))
      [GetCurrentDocument; GetCursorPos; GetRange start (getCursorPos host);
       GetText].
Proof.
  intros Hc He Hs Hp Hg written.
  unfold getHints, bind at 1. rewrite validPosition_run, Hc, He, Hs. cbn zeta.
  rewrite Hp. cbn [negb].
  destruct s as [ic li hs hh w sp e]. cbn in He, Hs, Hg. subst e sp.
  unfold getText_, getAll_, bind, this. cbn.
  rewrite Hg. reflexivity.
Qed.

Lemma getHints_rejected (host : Host) (c : option string) (s : LESSHint)
      (log : list HostCall) :
  validPosition host c s = Returned false s log ->
  getHints host c s = Returned None s log.
Proof.
  intros H. unfold getHints, bind. rewrite H. cbn.
  now rewrite app_nil_r.
Qed.

(** ** The state between calls *)

Lemma Forall_hintsFor (P : Match -> Prop) (written : string)
      (matches : list Match) :
  Forall P matches -> Forall P (hintsFor written matches).
Proof.
  intros H. rewrite Forall_forall in H |- *. intros m Hm.
  unfold hintsFor in Hm.
  apply (Permutation_in _ (sort_perm compareFn _)) in Hm.
  unfold filterHints in Hm. apply filter_In in Hm. now apply H.
Qed.

(** The three outcomes of [getHints]. *)
Lemma getHints_cases (host : Host) (c : option string) (s : LESSHint) :
  (exists log, getHints host c s = Returned None s log)
  \/ (exists log, getHints host c s = Thrown s log)
  \/ (exists start matches,
        invalidChar c = false /\ editor s = true /\ startPos s = Some start
        /\ line (getCursorPos host) = line start
        /\ ch start <= ch (getCursorPos host)
        /\ getAll (regex_lastIndex s) (getText host) = Some (matches, 0)
        /\ getHints host c s
           = Returned
               (Some {| response_hints :=
                          map render (hintsFor (getRange host start (getCursorPos host)) matches);
                        response_match := None;
                        selectInitial := true;
                        handleWideResults := false |})
               (set_hintsHTML
                  (map render (hintsFor (getRange host start (getCursorPos host)) matches))
                  (set_hints
                     (map m1 (hintsFor (getRange host start (getCursorPos host)) matches))
                     (set_lastIndex 0
                        (set_writtenSinceStart
                           (getRange host start (getCursorPos host)) s))))
               [GetCurrentDocument; GetCursorPos;
                GetRange start (getCursorPos host); GetText]).
Proof.
  destruct (invalidChar c) eqn:Hc.
  { left. exists []. apply getHints_rejected.
    now rewrite validPosition_run, Hc. }
  destruct (editor s) eqn:He.
  2:{ right; left. exists [GetCurrentDocument].
      unfold getHints, bind. now rewrite validPosition_run, Hc, He. }
  destruct (startPos s) as [start|] eqn:Hs.
  2:{ right; left. exists [GetCurrentDocument; GetCursorPos].
      unfold getHints, bind. now rewrite validPosition_run, Hc, He, Hs. }
  destruct ((line (getCursorPos host) =? line start)%nat
            && (ch start <=? ch (getCursorPos host))%nat) eqn:Hp.
  2:{ left. exists [GetCurrentDocument; GetCursorPos]. apply getHints_rejected.
      rewrite validPosition_run, Hc, He, Hs. cbn zeta. now rewrite Hp. }
  right; right.
  destruct (getAll_total (regex_lastIndex s) (getText host)) as (ms & G).
  exists start, ms.
  pose proof Hp as Hp'. apply andb_true_iff in Hp'. destruct Hp' as [Hl Hch].
  apply Nat.eqb_eq in Hl. apply Nat.leb_le in Hch.
  repeat (split; [first [assumption | reflexivity]|]).
  now apply getHints_run.
Qed.

Lemma Invariant_new : Invariant new_LESSHint.
Proof.
  repeat split; try reflexivity.
  - exists []. repeat split; constructor.
  - now left.
Qed.

Lemma Invariant_getHints (host : Host) (c : option string) (s s' : LESSHint) :
  Invariant s -> stateAfter (getHints host c s) = Some s' -> Invariant s'.
Proof.
  intros I H.
  destruct (getHints_cases host c s)
    as [[log E] | [[log E] | (start & ms & _ & He & Hs & _ & _ & G & E)]];
    rewrite E in H; cbn in H; inversion H; subst s'; clear H; try exact I.
  destruct I as (I1 & I2 & _ & _).
  split; [exact I1|]. split; [reflexivity|]. split.
  - eexists. split; [reflexivity|]. split; [reflexivity|].
    apply Forall_hintsFor. exact (getAll_names _ _ _ _ G).
  - right. split; [exact He|]. exists start. exact Hs.
Qed.

Lemma Reachable_Invariant (s : LESSHint) : Reachable s -> Invariant s.
Proof.
  induction 1 as [|host c s s' _ IH H|host c s s' _ IH H|host hint s s' _ IH H].
  - apply Invariant_new.
  - rewrite hasHints_run in H. cbn in H. inversion H; subst s'; clear H.
    destruct IH as (I1 & I2 & I3 & _).
    split; [exact I1|]. split; [exact I2|]. split; [exact I3|].
    right. split; [reflexivity|]. now eexists.
  - now apply (Invariant_getHints host c s).
  - rewrite insertHint_run in H. destruct (editor s); cbn in H;
      inversion H; subst s'; exact IH.
Qed.

(** ** hasHints *)

(** C6, as stated, fails: a character other than the sigil makes
    [hasHints] answer [false], but the start position is overwritten with
    the position of the cursor all the same. *)
Lemma hasHints_false_moves_startPos :
  hasHints hostAfterC (Some "c") sessionStarted
  = Returned false (set_startPos (mkPos 2 13) sessionStarted) [GetCursorPos]
  /\ startPos sessionStarted = Some (mkPos 2 12)
  /\ set_startPos (mkPos 2 13) sessionStarted <> sessionStarted.
Proof.
  split; [reflexivity|]. split; [reflexivity|].
  intros H. apply (f_equal startPos) in H. discriminate.
Qed.

(** C6, amended: for every inserted character other than the sigil, and
    for none at all, [hasHints] answers [false]; it keeps the editor and
    sets the start position to the position of the cursor, and leaves the
    other fields as they are. *)
Theorem hasHints_other_character (host : Host) (c : option string)
        (s : LESSHint) :
  implicitChar s = "@" ->
  c <> Some "@" ->
  exists s',
    hasHints host c s = Returned false s' [GetCursorPos]
    /\ editor s' = true
    /\ startPos s' = Some (getCursorPos host)
    /\ implicitChar s' = implicitChar s
    /\ regex_lastIndex s' = regex_lastIndex s
    /\ hints s' = hints s
    /\ hintsHTML s' = hintsHTML s
    /\ writtenSinceStart s' = writtenSinceStart s.
Proof.
  intros Hs Hc. eexists. rewrite hasHints_run. split.
  - f_equal. destruct c as [c|]; [|reflexivity].
    destruct (JS.truthy c); [|reflexivity].
    rewrite Hs. apply String.eqb_neq. congruence.
  - repeat split.
Qed.

Lemma hasHints_other_character_witness :
  exists s',
    hasHints hostAfterC (Some "c") sessionStarted = Returned false s' [GetCursorPos]
    /\ startPos s' = Some (mkPos 2 13)
    /\ hints s' = hints sessionStarted.
Proof.
  destruct (hasHints_other_character hostAfterC (Some "c") sessionStarted)
    as (s' & H & _ & Hp & _ & _ & Hh & _); [reflexivity | discriminate |].
  exists s'. split; [exact H|]. split; [exact Hp | exact Hh].
Defined.

(** ** validPosition *)

Lemma chars_test_one (c : ascii) : chars_test (String c "") = allowedChar c.
Proof.
  unfold chars_test, RegExp.test. cbn [list_ascii_of_string existsb].
  rewrite class_chars. apply orb_false_r.
Qed.

Lemma invalidChar_one (c : ascii) :
  invalidChar (Some (String c "")) = negb (allowedChar c).
Proof. unfold invalidChar. now rewrite chars_test_one. Qed.

(** C5, as stated, fails: the underscore is none of sigil, letter, digit
    and hyphen, and yet [validPosition] answers [true] for it and
    [getHints] goes on to read the text. *)
Lemma underscore_keeps_session :
  validPosition hostAfterUnderscore (Some "_") sessionStarted
  = Returned true (set_writtenSinceStart "_" sessionStarted)
      [GetCurrentDocument; GetCursorPos; GetRange (mkPos 2 12) (mkPos 2 13)]
  /\ exists r s',
       getHints hostAfterUnderscore (Some "_") sessionStarted
       = Returned (Some r) s'
           [GetCurrentDocument; GetCursorPos;
            GetRange (mkPos 2 12) (mkPos 2 13); GetText].
Proof.
  split; [vm_compute; reflexivity|].
  eexists. eexists. vm_compute. reflexivity.
Qed.

(** C5, amended: the characters that invalidate the session are exactly
    those that are none of sigil, letter, digit, underscore and hyphen. For
    such a character [validPosition] answers [false] and [getHints] answers
    [null], with no call on the host and the object as it was; for every
    other character the test of the character lets the call go on. *)
Theorem validPosition_rejects_other_characters (host : Host) (c : ascii)
        (s : LESSHint) :
  invalidChar (Some (String c "")) = negb (allowedChar c)
  /\ (allowedChar c = false ->
      validPosition host (Some (String c "")) s = Returned false s []
      /\ getHints host (Some (String c "")) s = Returned None s [])
  /\ (allowedChar c = true ->
      validPosition host (Some (String c "")) s = validPosition host None s).
Proof.
  split; [apply invalidChar_one|]. split.
  - intros H.
    assert (V : validPosition host (Some (String c "")) s = Returned false s []).
    { rewrite validPosition_run, invalidChar_one, H. reflexivity. }
    split; [exact V | now apply getHints_rejected].
  - intros H. rewrite !validPosition_run, invalidChar_one, H. reflexivity.
Qed.

Lemma validPosition_rejects_witness :
  (validPosition hostAfterC (Some "!") sessionStarted
   = Returned false sessionStarted []
   /\ getHints hostAfterC (Some "!") sessionStarted
      = Returned None sessionStarted [])
  /\ validPosition hostAfterC (Some "_") sessionStarted
     = validPosition hostAfterC None sessionStarted.
Proof.
  split.
  - apply (validPosition_rejects_other_characters hostAfterC "!" sessionStarted).
    vm_compute. reflexivity.
  - apply (validPosition_rejects_other_characters hostAfterC "_" sessionStarted).
    vm_compute. reflexivity.
Defined.

(** C7: with a start position recorded, [validPosition] answers [false]
    and [getHints] answers [null] whenever the cursor is on another line
    than the start position, or on its line before its column. When the
    cursor is on the line of the start position, at or after its column, and
    the character typed is a valid one or there is none, [validPosition]
    sets the written text to the text of the document between the start
    position and the cursor and answers [true], and [getHints] goes on and
    answers with the list made from that written text. *)
Theorem validPosition_follows_cursor (host : Host) (c : option string)
        (s : LESSHint) (start : Pos) :
  editor s = true ->
  startPos s = Some start ->
  (line (getCursorPos host) <> line start
   \/ (line (getCursorPos host) = line start
       /\ ch (getCursorPos host) < ch start) ->
   exists log,
     validPosition host c s = Returned false s log
     /\ getHints host c s = Returned None s log)
  /\ (line (getCursorPos host) = line start ->
      ch start <= ch (getCursorPos host) ->
      invalidChar c = false ->
      let written := getRange host start (getCursorPos host) in
      validPosition host c s
      = Returned true (set_writtenSinceStart written s)
          [GetCurrentDocument; GetCursorPos; GetRange start (getCursorPos host)]
      /\ exists matches s',
           getAll (regex_lastIndex s) (getText host) = Some (matches, 0)
           /\ getHints host c s
              = Returned
                  (Some {| response_hints := map render (hintsFor written matches);
                           response_match := None;
                           selectInitial := true;
                           handleWideResults := false |})
                  s'
                  [GetCurrentDocument; GetCursorPos;
                   GetRange start (getCursorPos host); GetText]
           /\ writtenSinceStart s' = written
           /\ hints s' = map m1 (hintsFor written matches)
           /\ hintsHTML s' = map render (hintsFor written matches)).
Proof.
  intros He Hs. split.
  - intros Hpos.
    assert (Hp : ((line (getCursorPos host) =? line start)%nat
                  && (ch start <=? ch (getCursorPos host))%nat) = false).
    { apply andb_false_iff. destruct Hpos as [Hl | [_ Hc]].
      - left. now apply Nat.eqb_neq.
      - right. apply Nat.leb_gt. exact Hc. }
    assert (V : exists log, validPosition host c s = Returned false s log).
    { rewrite validPosition_run, He, Hs. cbn zeta. rewrite Hp.
      destruct (invalidChar c); eexists; reflexivity. }
    destruct V as [log V]. exists log.
    split; [exact V | now apply getHints_rejected].
  - intros Hl Hc Hi written.
    assert (Hp : ((line (getCursorPos host) =? line start)%nat
                  && (ch start <=? ch (getCursorPos host))%nat) = true).
    { apply andb_true_iff. split; [now apply Nat.eqb_eq | now apply Nat.leb_le]. }
    split.
    + rewrite validPosition_run, Hi, He, Hs. cbn zeta. now rewrite Hp.
    + destruct (getAll_total (regex_lastIndex s) (getText host)) as (ms & G).
      exists ms. eexists. split; [exact G|].
      split; [now apply getHints_run|].
      repeat split.
Qed.

Lemma validPosition_follows_cursor_witness :
  (exists log,
     validPosition (hostOfLines exampleLines (mkPos 1 13)) (Some "c") sessionStarted
     = Returned false sessionStarted log
     /\ getHints (hostOfLines exampleLines (mkPos 1 13)) (Some "c") sessionStarted
        = Returned None sessionStarted log)
  /\ validPosition hostAfterC (Some "c") sessionStarted
     = Returned true (set_writtenSinceStart "c" sessionStarted)
         [GetCurrentDocument; GetCursorPos; GetRange (mkPos 2 12) (mkPos 2 13)].
Proof.
  split.
  - apply (validPosition_follows_cursor
             (hostOfLines exampleLines (mkPos 1 13)) (Some "c") sessionStarted
             (mkPos 2 12)); [reflexivity | reflexivity |].
    left. cbn. lia.
  - apply (validPosition_follows_cursor hostAfterC (Some "c") sessionStarted
             (mkPos 2 12)); [reflexivity | reflexivity | reflexivity | | ].
    + cbn. lia.
    + vm_compute. reflexivity.
Defined.

(** ** insertHint *)

Lemma arrayIndexOf_absent (l : list string) (x : string) :
  ~ In x l -> JS.arrayIndexOf l x = (-1)%Z.
Proof.
  induction l as [|y l IH]; cbn [JS.arrayIndexOf In]; intros H; [reflexivity|].
  destruct (String.eqb_spec y x) as [E|E]; [tauto|].
  rewrite IH by tauto. reflexivity.
Qed.

Lemma arrayIndexOf_present (l : list string) (x : string) :
  In x l ->
  exists j, JS.arrayIndexOf l x = Z.of_nat j /\ nth_error l j = Some x.
Proof.
  induction l as [|y l IH]; cbn [JS.arrayIndexOf In]; intros H; [contradiction|].
  destruct (String.eqb_spec y x) as [E|E].
  - exists 0. subst. split; reflexivity.
  - destruct H as [H|H]; [contradiction|].
    destruct (IH H) as (j & Hj & Hn). exists (S j). rewrite Hj.
    destruct (Z.eqb_spec (Z.of_nat j) (-1)); [lia|].
    split; [lia | exact Hn].
Qed.

Lemma arrayGet_of_nat {A : Type} (l : list A) (j : nat) :
  JS.arrayGet l (Z.of_nat j) = nth_error l j.
Proof.
  unfold JS.arrayGet. destruct (Z.ltb_spec (Z.of_nat j) 0); [lia|].
  now rewrite Nat2Z.id.
Qed.

(** C2, as stated, fails: for a string that is no element of [hintsHTML],
    [insertHint] asks the document to replace the range from the start
    position to the cursor all the same, with [undefined] as the text. *)
Lemma insertHint_unknown_still_replaces :
  ~ In "color" (hintsHTML sessionWithHints)
  /\ insertHint hostAfterC "color" sessionWithHints
     = Returned tt sessionWithHints
         [GetCurrentDocument; GetCursorPos;
          ReplaceRange None (Some (mkPos 2 12)) (mkPos 2 13)]
  /\ filter isReplaceRange
       (logOf (insertHint hostAfterC "color" sessionWithHints)) <> [].
Proof.
  split.
  - vm_compute. intros [H|[H|[]]]; discriminate.
  - split; [vm_compute; reflexivity | vm_compute; discriminate].
Qed.

(** C2, amended: for a string that is no element of [hintsHTML],
    [insertHint] leaves the object as it is and makes one request to the
    document, to replace the range from the start position to the cursor,
    in which the text is [undefined]; nothing in the method keeps the
    request from being made. Before any editor has been recorded the
    method throws and makes no such request. *)
Theorem insertHint_unknown_hint (host : Host) (hint : string) (s : LESSHint) :
  ~ In hint (hintsHTML s) ->
  (editor s = true ->
   insertHint host hint s
   = Returned tt s
       [GetCurrentDocument; GetCursorPos;
        ReplaceRange None (startPos s) (getCursorPos host)])
  /\ (editor s = false ->
      insertHint host hint s = Thrown s [GetCurrentDocument]).
Proof.
  intros H. rewrite insertHint_run, (arrayIndexOf_absent _ _ H).
  split; intros ->; reflexivity.
Qed.

Lemma insertHint_unknown_hint_witness :
  insertHint hostAfterC "color" sessionWithHints
  = Returned tt sessionWithHints
      [GetCurrentDocument; GetCursorPos;
       ReplaceRange None (Some (mkPos 2 12)) (mkPos 2 13)].
Proof.
  apply (insertHint_unknown_hint hostAfterC "color" sessionWithHints).
  - vm_compute. intros [H|[H|[]]]; discriminate.
  - reflexivity.
Defined.

(** A name ends where the markup of its rendering begins. *)
Lemma name_before_angle (x y r1 r2 : string) :
  allOf nameChar x = true -> allOf nameChar y = true ->
  (x ++ String "<" r1)%string = (y ++ String "<" r2)%string -> x = y.
Proof.
  revert y. induction x as [|c x IH]; intros [|d y]; cbn [allOf append];
    intros Hx Hy E.
  - reflexivity.
  - inversion E; subst d. apply andb_true_iff in Hy. destruct Hy as [Hd _].
    apply nameChar_not_angle in Hd. discriminate.
  - inversion E; subst c. apply andb_true_iff in Hx. destruct Hx as [Hc _].
    apply nameChar_not_angle in Hc. discriminate.
  - inversion E; subst d. apply andb_true_iff in Hx, Hy.
    destruct Hx as [_ Hx], Hy as [_ Hy]. f_equal. now apply IH.
Qed.

Lemma render_name (a b : Match) :
  allOf nameChar (m1 a) = true -> allOf nameChar (m1 b) = true ->
  render a = render b -> m1 a = m1 b.
Proof. unfold render. cbn [append]. apply name_before_angle. Qed.

(** C9: in every state that the host can bring about, for every element
    of [hintsHTML], at any index [i], [insertHint] asks the document to
    replace the range from the start position to the cursor with the name
    at index [i] of [hints]: the name of the match of which the element is
    the rendering, made of name characters only, without the value. *)
Theorem insertHint_inserts_name (s : LESSHint) (host : Host) (i : nat)
        (display : string) :
  Reachable s ->
  nth_error (hintsHTML s) i = Some display ->
  exists name value start,
    nth_error (hints s) i = Some name
    /\ startPos s = Some start
    /\ display = (name ++ "<span style='color:#a0a0a0; margin-left: 10px'>"
                       ++ value ++ "</span>")%string
    /\ allOf nameChar name = true
    /\ insertHint host display s
       = Returned tt s
           [GetCurrentDocument; GetCursorPos;
            ReplaceRange (Some name) (Some start) (getCursorPos host)].
Proof.
  intros R Hd. apply Reachable_Invariant in R.
  destruct R as (_ & _ & (ms & Hh & Hhtml & Hn) & Hed).
  destruct Hed as [E | (He & start & Hs)]; [rewrite E in Hd; now destruct i|].
  rewrite Hhtml, nth_error_map in Hd.
  destruct (nth_error ms i) as [m|] eqn:Em; [|discriminate].
  cbn in Hd. inversion Hd; subst display; clear Hd.
  rewrite Forall_forall in Hn.
  assert (Hm : allOf nameChar (m1 m) = true) by (apply Hn; eapply nth_error_In; eauto).
  exists (m1 m), (m2 m), start.
  split; [now rewrite Hh, nth_error_map, Em|].
  split; [exact Hs|]. split; [reflexivity|]. split; [exact Hm|].
  rewrite insertHint_run, He, Hs.
  assert (Hin : In (render m) (hintsHTML s)).
  { rewrite Hhtml. apply in_map. eapply nth_error_In; eauto. }
  destruct (arrayIndexOf_present _ _ Hin) as (j & Hj & Hnth).
  rewrite Hj, arrayGet_of_nat, Hh, nth_error_map.
  rewrite Hhtml, nth_error_map in Hnth.
  destruct (nth_error ms j) as [m'|] eqn:Em'; [|discriminate].
  cbn in Hnth. inversion Hnth as [Hr]. cbn [option_map].
  assert (Hm' : allOf nameChar (m1 m') = true)
    by (apply Hn; eapply nth_error_In; eauto).
  rewrite (render_name m' m Hm' Hm Hr). reflexivity.
Qed.

Lemma sessionWithHints_Reachable : Reachable sessionWithHints.
Proof.
  apply (Reachable_getHints hostAfterC (Some "c") sessionStarted).
  - apply (Reachable_hasHints hostAtSigil (Some "@") new_LESSHint).
    + apply Reachable_new.
    + reflexivity.
  - vm_compute. reflexivity.
Qed.

Lemma insertHint_inserts_name_witness :
  nth_error (hintsHTML sessionWithHints) 0
  = Some "bg-color<span style='color:#a0a0a0; margin-left: 10px'>blue</span>"
  /\ exists name value start,
       nth_error (hints sessionWithHints) 0 = Some name
       /\ startPos sessionWithHints = Some start
       /\ "bg-color<span style='color:#a0a0a0; margin-left: 10px'>blue</span>"
          = (name ++ "<span style='color:#a0a0a0; margin-left: 10px'>"
                  ++ value ++ "</span>")%string
       /\ allOf nameChar name = true
       /\ insertHint hostAfterC
            "bg-color<span style='color:#a0a0a0; margin-left: 10px'>blue</span>"
            sessionWithHints
          = Returned tt sessionWithHints
              [GetCurrentDocument; GetCursorPos;
               ReplaceRange (Some name) (Some start) (mkPos 2 13)].
Proof.
  split; [vm_compute; reflexivity|].
  apply (insertHint_inserts_name sessionWithHints hostAfterC 0).
  - apply sessionWithHints_Reachable.
  - vm_compute. reflexivity.
Defined.

(** ** The examples of the specification, run *)

(** Example 2: nothing is kept when a written character is in no name. *)
Lemma example_no_candidate :
  getAll 0 "@foo: 1;" = Some ([mkMatch "@foo: 1" "foo" "1" 0], 0)
  /\ filterHints "z" [mkMatch "@foo: 1" "foo" "1" 0] = [].
Proof. split; vm_compute; reflexivity. Qed.

(** Example 4: the name goes into the document, not the value. *)
Lemma example_insert_name :
  hints sessionWithHints = ["bg-color"; "color"]
  /\ insertHint hostAfterC
       "bg-color<span style='color:#a0a0a0; margin-left: 10px'>blue</span>"
       sessionWithHints
     = Returned tt sessionWithHints
         [GetCurrentDocument; GetCursorPos;
          ReplaceRange (Some "bg-color") (Some (mkPos 2 12)) (mkPos 2 13)].
Proof. split; vm_compute; reflexivity. Qed.

Lemma filterHints_keeps_subsequences_witness :
  In (mkMatch "@bg-color: blue" "bg-color" "blue" 13)
     (filterHints "C" exampleMatches).
Proof.
  apply (filterHints_keeps_subsequences "C" exampleMatches).
  split; [right; left; reflexivity|].
  cbn. repeat constructor.
Defined.

Lemma processHints_sorted_and_aligned_witness :
  exists m,
    m1 m = "bg-color"
    /\ nth_error (hintsHTML (stateOr (processHints exampleMatches new_LESSHint))) 0
       = Some (m1 m ++ "<span style='color:#a0a0a0; margin-left: 10px'>"
                    ++ m2 m ++ "</span>")%string.
Proof.
  destruct (processHints_sorted_and_aligned exampleMatches new_LESSHint)
    as (sorted & s' & Hrun & _ & _ & _ & _ & _ & _ & Hal).
  assert (Es : stateOr (processHints exampleMatches new_LESSHint) = s')
    by (now rewrite Hrun).
  assert (E0 : nth_error (hints s') 0 = Some "bg-color")
    by (rewrite <- Es; vm_compute; reflexivity).
  destruct (Hal 0 "bg-color" E0) as (m & _ & Hn & Hr).
  exists m. rewrite Es. split; [now symmetry | exact Hr].
Defined.

(** * Further properties of the methods *)

(** ** filterHints: what typing does to the list *)

Lemma toLowerCase_append (a b : string) :
  JS.toLowerCase (a ++ b) = (JS.toLowerCase a ++ JS.toLowerCase b)%string.
Proof. induction a as [|c a IH]; cbn; [reflexivity | now rewrite IH]. Qed.

Lemma toLowerCase_length (a : string) :
  String.length (JS.toLowerCase a) = String.length a.
Proof. induction a as [|c a IH]; cbn; [reflexivity | now rewrite IH]. Qed.

Lemma Subseq_refl (s : string) : Subseq s s.
Proof. induction s; constructor; assumption. Qed.

Lemma Subseq_prepend (a w s : string) : Subseq w s -> Subseq w (a ++ s).
Proof. intros H. induction a; cbn; [assumption | now apply Subseq_skip]. Qed.

Lemma Subseq_extend (w s b : string) : Subseq w s -> Subseq w (s ++ b).
Proof. induction 1; cbn; constructor; assumption. Qed.

Lemma Subseq_prefix (w v s : string) : Subseq (w ++ v) s -> Subseq w s.
Proof.
  revert s. induction w as [|c w IH]; intros s H; [constructor|].
  cbn in H. induction s as [|d s IHs]; inversion H; subst.
  - apply Subseq_take. now apply IH.
  - apply Subseq_skip. now apply IHs.
Qed.

Lemma Subseq_length (w s : string) :
  Subseq w s -> String.length w <= String.length s.
Proof. induction 1; cbn; lia. Qed.

Lemma filter_filter_implies {A : Type} (f g : A -> bool) (l : list A) :
  (forall x, f x = true -> g x = true) ->
  filter f (filter g l) = filter f l.
Proof.
  intros H. induction l as [|x l IH]; [reflexivity|]. cbn.
  destruct (g x) eqn:G; cbn; [now rewrite IH|].
  destruct (f x) eqn:F; [|exact IH].
  apply H in F. congruence.
Qed.

(** X1: Typing on never brings a declaration back: the list for a longer
    written text is got by filtering the list for the shorter one. *)
Theorem filterHints_narrows (W V : string) (matches : list Match) :
  filterHints (W ++ V) matches
  = filterHints (W ++ V) (filterHints W matches)
  /\ forall m, In m (filterHints (W ++ V) matches) -> In m (filterHints W matches).
Proof.
  assert (E : filterHints (W ++ V) matches
              = filterHints (W ++ V) (filterHints W matches)).
  { unfold filterHints. symmetry. apply filter_filter_implies.
    intros m. rewrite !filterLoop_Subseq, toLowerCase_append.
    apply Subseq_prefix. }
  split; [exact E|].
  intros m H. rewrite E in H. unfold filterHints at 1 in H.
  apply filter_In in H. tauto.
Qed.

Lemma filterHints_narrows_witness :
  In (mkMatch "@color: red" "color" "red" 0) (filterHints "c" exampleMatches).
Proof.
  apply (filterHints_narrows "c" "l" exampleMatches).
  vm_compute. left. reflexivity.
Defined.

(** X2: A declaration is kept when what is written occurs in its name as one
    piece, whatever the case of the letters on either side; so it is for the
    beginning of the name, and for the whole name. *)
Theorem filterHints_keeps_piece_of_name (W a b : string) (m : Match)
        (matches : list Match) :
  In m matches ->
  JS.toLowerCase (m1 m) = (a ++ JS.toLowerCase W ++ b)%string ->
  In m (filterHints W matches).
Proof.
  intros Hin E. apply filterHints_In. split; [exact Hin|].
  rewrite E. apply Subseq_prepend, Subseq_extend, Subseq_refl.
Qed.

Lemma filterHints_keeps_piece_of_name_witness :
  In (mkMatch "@bg-color: blue" "bg-color" "blue" 13)
     (filterHints "G-Col" exampleMatches).
Proof.
  apply (filterHints_keeps_piece_of_name "G-Col" "b" "or").
  - right. left. reflexivity.
  - vm_compute. reflexivity.
Defined.

(** X3: A written text that is longer than a name rejects it. *)
Theorem filterHints_rejects_shorter_name (W : string) (m : Match)
        (matches : list Match) :
  String.length (m1 m) < String.length W ->
  ~ In m (filterHints W matches).
Proof.
  intros L H. apply filterHints_In in H. destruct H as [_ H].
  apply Subseq_length in H. rewrite !toLowerCase_length in H. lia.
Qed.

Lemma filterHints_rejects_shorter_name_witness :
  ~ In (mkMatch "@color: red" "color" "red" 0) (filterHints "colour" exampleMatches).
Proof.
  apply filterHints_rejects_shorter_name. cbn. lia.
Defined.

(** ** processHints: the sort *)

Section SortingMore.

Context {A : Type}.
Variable cmp : A -> A -> Z.

Lemma sortInsert_front (x : A) (l : list A) :
  Forall (mayPrecede cmp x) l -> sortInsert cmp x l = x :: l.
Proof.
  intros H. destruct l as [|y l]; [reflexivity|].
  inversion H as [|? ? Hy _]; subst. cbn. unfold mayPrecede in Hy.
  now rewrite Hy.
Qed.

Lemma sort_of_sorted (l : list A) :
  StronglySorted (mayPrecede cmp) l -> sort cmp l = l.
Proof.
  induction 1 as [|x l Hs IH Hall]; [reflexivity|].
  cbn [sort fold_right]. fold (sort cmp l). rewrite IH.
  now apply sortInsert_front.
Qed.

Hypothesis precede_total : forall x y, mayPrecede cmp x y \/ mayPrecede cmp y x.
Hypothesis precede_trans :
  forall x y z, mayPrecede cmp x y -> mayPrecede cmp y z -> mayPrecede cmp x z.

Variable f : A -> bool.

Lemma sortInsert_filter_sorted (x : A) (l : list A) :
  StronglySorted (mayPrecede cmp) l ->
  filter f (sortInsert cmp x l)
  = if f x then sortInsert cmp x (filter f l) else filter f l.
Proof.
  induction 1 as [|y l Hs IH Hall]; [cbn; now destruct (f x)|].
  cbn [sortInsert]. destruct (0 <? cmp x y)%Z eqn:E.
  - cbn [filter]. rewrite IH.
    destruct (f x), (f y); try reflexivity.
    cbn [sortInsert]. now rewrite E.
  - cbn [filter]. destruct (f x); [|reflexivity].
    symmetry. apply sortInsert_front.
    assert (Hx : Forall (mayPrecede cmp x) (y :: l)).
    { constructor; [exact E|].
      rewrite Forall_forall in Hall |- *. intros z Hz.
      apply precede_trans with y; [exact E | now apply Hall]. }
    rewrite Forall_forall in Hx |- *. intros z Hz. apply Hx.
    change (In z (filter f (y :: l))) in Hz. apply filter_In in Hz. tauto.
Qed.

Lemma sort_filter_commute (l : list A) :
  sort cmp (filter f l) = filter f (sort cmp l).
Proof.
  induction l as [|x l IH]; [reflexivity|].
  cbn [sort fold_right filter]. fold (sort cmp l).
  rewrite sortInsert_filter_sorted
    by (apply sort_sorted; assumption).
  destruct (f x); [|exact IH].
  cbn [fold_right]. fold (sort cmp (filter f l)). now rewrite IH.
Qed.

End SortingMore.

Lemma compareFn_total (x y : Match) :
  mayPrecede compareFn x y \/ mayPrecede compareFn y x.
Proof. rewrite !compareFn_before. apply String.leb_total. Qed.

Lemma compareFn_trans (x y z : Match) :
  mayPrecede compareFn x y -> mayPrecede compareFn y z ->
  mayPrecede compareFn x z.
Proof. rewrite !compareFn_before. apply string_leb_trans. Qed.

(** X4: Sorting what is sorted changes nothing: the list that [processHints]
    has made is left as it is when it is sorted again. *)
Theorem sort_compareFn_idempotent (matches : list Match) :
  sort compareFn (sort compareFn matches) = sort compareFn matches.
Proof.
  apply sort_of_sorted, sort_sorted; [apply compareFn_total | apply compareFn_trans].
Qed.

(** X5: Filtering and sorting may be done in either order: the list shown for
    a written text is the sorted list of all declarations with the rejected
    ones left out, so that the declarations that stay keep their places
    relative to each other while the user types. *)
Theorem hintsFor_filters_sorted_list (W : string) (matches : list Match) :
  hintsFor W matches = filterHints W (sort compareFn matches).
Proof.
  unfold hintsFor, filterHints.
  apply sort_filter_commute; [apply compareFn_total | apply compareFn_trans].
Qed.

(** ** getAll: what the pattern captures *)

Lemma exec_FoundAt (lastIndex : nat) (text : string) r (lastIndex' : nat) :
  exec true regex_nodes lastIndex text = (Some r, lastIndex') ->
  exists m, asMatch r = Some m /\ FoundAt text m.
Proof.
  unfold exec. destruct (Nat.ltb_spec (String.length text) lastIndex) as [L|L];
    [discriminate|].
  destruct (search true regex_nodes (JS.drop lastIndex text) lastIndex)
    as [[[j whole] caps]|] eqn:E; [|discriminate].
  intros H.
  assert (Hr : r = (j, whole, caps)) by congruence. subst r. clear H.
  apply search_Some in E. destruct E as (d & rest & -> & Hd & Hn & Hm & Hw).
  rewrite drop_drop in Hm, Hw.
  pose proof (matchHere_Declaration _ _ _ Hm) as (w & name & value & _ & -> & _).
  exists (mkMatch whole name value (lastIndex + d)).
  split; [reflexivity|]. exists rest. split; assumption.
Qed.

Lemma getAllLoop_FoundAt (text : string) (fuel lastIndex : nat)
      (matches : list Match) (lastIndex' : nat) :
  getAllLoop fuel lastIndex text = Some (matches, lastIndex') ->
  Forall (FoundAt text) matches.
Proof.
  revert lastIndex matches. induction fuel as [|fuel IH]; intros lastIndex ms;
    [discriminate|].
  rewrite getAllLoop_unfold.
  destruct (exec true regex_nodes lastIndex text) as [[r|] li] eqn:E.
  - apply exec_FoundAt in E. destruct E as (m & -> & F).
    destruct (getAllLoop fuel li text) as [[ms' li'']|] eqn:G; [|discriminate].
    intros H. assert (ms = m :: ms') by congruence.
    assert (li'' = lastIndex') by congruence. subst ms li''.
    constructor; [exact F | exact (IH _ _ G)].
  - intros H. assert (ms = []) by congruence. subst ms. constructor.
Qed.

Lemma space_not_nameChar (c : ascii) : isSpace c = true -> nameChar c = false.
Proof.
  intros H. apply negb_true_iff. revert c H.
  apply by_table_implies. vm_compute. reflexivity.
Qed.

(** X6: The name is all of the identifier after the sigil: in every entry the
    whole match is the sigil, the name, and a rest that begins with a
    character that cannot be part of a name. *)
Theorem getAll_name_is_whole_identifier (text : string) (lastIndex : nat)
        (matches : list Match) (lastIndex' : nat) (m : Match) :
  getAll lastIndex text = Some (matches, lastIndex') ->
  In m matches ->
  exists c r,
    m0 m = ("@" ++ m1 m ++ String c r)%string /\ nameChar c = false.
Proof.
  intros G Hin. apply getAllLoop_FoundAt in G.
  rewrite Forall_forall in G. destruct (G m Hin) as (rest & Hm & Hw).
  apply matchHere_Some in Hm.
  destruct Hm as (name & ws1 & ws2 & value & E & Hc & _ & _ & Hw1 & _ & _ & _ & _).
  assert (name = m1 m) by congruence. subst name.
  rewrite Hw in E.
  assert (E' : m0 m = ("@" ++ m1 m ++ ws1 ++ ":" ++ ws2 ++ value)%string).
  { apply (append_inv_tail _ _ rest). rewrite E.
    repeat (rewrite append_assoc || cbn [append]). reflexivity. }
  destruct ws1 as [|c ws1].
  - exists ":"%char, (ws2 ++ value)%string. split; [exact E' | reflexivity].
  - exists c, (ws1 ++ ":" ++ ws2 ++ value)%string. split; [exact E'|].
    cbn [allOf] in Hw1. apply andb_true_iff in Hw1.
    apply space_not_nameChar. tauto.
Qed.

Lemma getAll_name_is_whole_identifier_witness :
  exists c r,
    "@bg-color: blue" = ("@" ++ "bg-color" ++ String c r)%string
    /\ nameChar c = false.
Proof.
  apply (getAll_name_is_whole_identifier exampleText 0 exampleMatches 0
           (mkMatch "@bg-color: blue" "bg-color" "blue" 13)).
  - vm_compute. reflexivity.
  - right. left. reflexivity.
Defined.

Lemma allOf_app (p : ascii -> bool) (a b : string) :
  allOf p (a ++ b) = allOf p a && allOf p b.
Proof.
  induction a as [|x a IH]; cbn [append allOf]; [reflexivity|].
  now rewrite IH, andb_assoc.
Qed.

(** The longest beginning of [v] that is made of characters of a class. *)
Lemma span_class (p : ascii -> bool) (v : string) :
  exists a b,
    v = (a ++ b)%string /\ allOf p a = true
    /\ match b with
       | EmptyString => True
       | String d _ => p d = false
       end.
Proof.
  induction v as [|c v IH].
  - exists "", "". repeat split.
  - destruct (p c) eqn:Pc.
    + destruct IH as (a & b & -> & Ha & Hb).
      exists (String c a), b. cbn [append allOf]. rewrite Pc, Ha. auto.
    + exists "", (String c v). repeat split. exact Pc.
Qed.

(** White space before the value is passed over whenever something else
    follows it on the line: a value that begins with white space is white
    space throughout. *)
Lemma matchHere_value_space (s rest name value : string) :
  matchHere true regex_nodes s = Some (rest, [name; value]) ->
  match value with
  | EmptyString => False
  | String c _ => isSpace c = true -> allOf isSpace value = true
  end.
Proof.
  unfold matchHere, regex_nodes. cbn [matchSeq matchNode]. intros H.
  destruct s as [|c0 s]; [discriminate|].
  destruct (atomMatches true (One (Lit "@")) c0); [|discriminate].
  destruct s as [|c1 s]; [discriminate|].
  destruct (atomMatches true (AnyOf [WordChar; Lit "-"]) c1); [|discriminate].
  apply star_Some in H. destruct H as (n & s1 & -> & _ & H & _).
  apply star_Some in H. destruct H as (ws1 & s2 & -> & _ & H & _).
  destruct s2 as [|c2 s2]; [discriminate|].
  destruct (atomMatches true (One (Lit ":")) c2); [|discriminate].
  apply star_Some in H. destruct H as (ws2 & s3 & -> & _ & H & G).
  destruct s3 as [|c3 s3]; [discriminate|].
  destruct (atomMatches true (NoneOf [Lit "010"; Lit ";"]) c3) eqn:E3;
    [|discriminate].
  apply star_Some in H. destruct H as (v & s4 & -> & Hv & H & _).
  rewrite !take_cons_append in H.
  assert (Ev : value = String c3 v) by (cbn [app] in H; congruence).
  subst value. clear H. intros Hc3.
  specialize (G c3 (v ++ s4)%string eq_refl).
  rewrite class_space in G. specialize (G Hc3).
  cbn [allOf]. rewrite Hc3. cbn [andb].
  destruct (span_class (atomMatches true (One WhiteSpace)) v)
    as (a & b & -> & Ha & Hb).
  rewrite allOf_app, (allOf_class _ _ _ (fun c => eq_sym (class_space c)) Ha).
  cbn [andb]. destruct b as [|d b]; [reflexivity|]. exfalso.
  rewrite allOf_app in Hv. apply andb_true_iff in Hv. destruct Hv as [_ Hd].
  cbn [allOf] in Hd. apply andb_true_iff in Hd. destruct Hd as [Hd _].
  eapply star_None in G; [| rewrite append_assoc; reflexivity | exact Ha].
  cbn [append] in G. rewrite Hd in G. revert G.
  apply star_never_None. discriminate.
Qed.

(** X7: Leading white space is not part of a value, unless the value is white
    space only: when the value of an entry begins with a white space
    character, all of its characters are white space. *)
Theorem getAll_value_leading_space (text : string) (lastIndex : nat)
        (matches : list Match) (lastIndex' : nat) (m : Match) (c : ascii)
        (v : string) :
  getAll lastIndex text = Some (matches, lastIndex') ->
  In m matches ->
  m2 m = String c v ->
  isSpace c = true ->
  allOf isSpace (m2 m) = true.
Proof.
  intros G Hin Ev Hc. apply getAllLoop_FoundAt in G.
  rewrite Forall_forall in G. destruct (G m Hin) as (rest & Hm & _).
  apply matchHere_value_space in Hm. rewrite Ev in Hm |- *. now apply Hm.
Qed.

Lemma getAll_value_leading_space_witness :
  getAll 0 "@a: ;@b:  1;" = Some ([mkMatch "@a: " "a" " " 0; mkMatch "@b:  1" "b" "1" 5], 0)
  /\ allOf isSpace " " = true.
Proof.
  split; [vm_compute; reflexivity|].
  apply (getAll_value_leading_space "@a: ;@b:  1;" 0
           [mkMatch "@a: " "a" " " 0; mkMatch "@b:  1" "b" "1" 5] 0
           (mkMatch "@a: " "a" " " 0) " " "").
  - vm_compute. reflexivity.
  - left. reflexivity.
  - reflexivity.
  - vm_compute. reflexivity.
Defined.

(** ** getAll: where the entries are, and how many *)

Lemma get_drop (i : nat) (text : string) (c : ascii) (r : string) :
  JS.drop i text = String c r -> String.get i text = Some c.
Proof.
  revert text. induction i as [|i IH]; intros [|d text]; cbn; intros H;
    try discriminate.
  - congruence.
  - now apply IH.
Qed.

Lemma get_allOf (p : ascii -> bool) (i : nat) (text : string) (c : ascii) :
  allOf p text = true -> String.get i text = Some c -> p c = true.
Proof.
  revert i. induction text as [|d text IH]; intros i Ha Hg; [discriminate|].
  cbn [allOf] in Ha. apply andb_true_iff in Ha. destruct Ha as [Hd Ha].
  destruct i as [|i]; cbn in Hg; [congruence | now apply (IH i)].
Qed.

Lemma getAll_Scan (lastIndex : nat) (text : string) (matches : list Match)
      (lastIndex' : nat) :
  getAll lastIndex text = Some (matches, lastIndex') ->
  lastIndex' = 0 /\ Scan text lastIndex matches.
Proof.
  intros H.
  destruct (getAllLoop_Scan (String.length text) lastIndex text)
    as (ms & G & Sc); [lia|].
  unfold getAll in H. rewrite G in H.
  assert (ms = matches) by congruence. assert (lastIndex' = 0) by congruence.
  subst. split; [reflexivity | exact Sc].
Qed.

(** X8: Every entry begins at a sigil of the text; a text without a sigil has
    no entries. *)
Theorem getAll_entries_at_sigils (text : string) (lastIndex : nat)
        (matches : list Match) (lastIndex' : nat) :
  getAll lastIndex text = Some (matches, lastIndex') ->
  (forall m, In m matches -> String.get (index m) text = Some "@"%char)
  /\ (allOf notSigil text = true -> matches = []).
Proof.
  intros G.
  assert (At : forall m, In m matches ->
                         String.get (index m) text = Some "@"%char).
  { intros m Hin. apply getAllLoop_FoundAt in G.
    rewrite Forall_forall in G. destruct (G m Hin) as (rest & Hm & Hw).
    apply matchHere_Some in Hm. destruct Hm as (? & ? & ? & ? & E & _).
    cbn [append] in E. eapply get_drop. exact E. }
  split; [exact At|].
  intros Hn. destruct matches as [|m ms]; [reflexivity|].
  specialize (At m (or_introl eq_refl)).
  apply (get_allOf _ _ _ _ Hn) in At. discriminate.
Qed.

Lemma getAll_entries_at_sigils_witness :
  String.get 13 exampleText = Some "@"%char
  /\ getAll 0 "a { color: red; }" = Some ([], 0).
Proof.
  split.
  - destruct (getAll_entries_at_sigils exampleText 0 exampleMatches 0) as [At _];
      [vm_compute; reflexivity|].
    apply (At (mkMatch "@bg-color: blue" "bg-color" "blue" 13)).
    right. left. reflexivity.
  - destruct (getAll_total 0 "a { color: red; }") as (ms & G).
    destruct (getAll_entries_at_sigils "a { color: red; }" 0 ms 0 G) as [_ E].
    rewrite G, E; [reflexivity | vm_compute; reflexivity].
Defined.

Lemma Scan_count (text : string) (from : nat) (ms : list Match) :
  Scan text from ms -> from <= String.length text ->
  from + 4 * length ms <= String.length text.
Proof.
  induction 1 as [from Hno|from m ms Hle Hgap Hm Hs IH]; intros L;
    cbn [length]; [lia|].
  pose proof Hm as (Hlen & _ & D & _). apply Declaration_length in D.
  specialize (IH Hlen). lia.
Qed.

(** X9: A declaration takes four characters at least and the entries do not
    overlap: a text of [n] characters has at most [n / 4] entries. *)
Theorem getAll_count_bound (text : string) (matches : list Match)
        (lastIndex' : nat) :
  getAll 0 text = Some (matches, lastIndex') ->
  4 * length matches <= String.length text.
Proof.
  intros G. apply getAll_Scan in G. destruct G as [_ Sc].
  apply Scan_count in Sc; lia.
Qed.

Lemma getAll_count_bound_witness :
  4 * length exampleMatches <= String.length exampleText.
Proof.
  apply (getAll_count_bound exampleText exampleMatches 0).
  vm_compute. reflexivity.
Defined.

(** X10: The loop ends for every value that [lastIndex] may have when it
    begins, and leaves it at 0; it finds the declarations from that position
    on only, and none at all when the position is past the end of the text.
    So the list is that of the whole text only when [lastIndex] is 0 at the
    beginning. *)
Theorem getAll_from_lastIndex (lastIndex : nat) (text : string) :
  exists matches,
    getAll lastIndex text = Some (matches, 0)
    /\ Scan text lastIndex matches
    /\ Forall (fun m => lastIndex <= index m) matches
    /\ (String.length text < lastIndex -> matches = []).
Proof.
  destruct (getAll_total lastIndex text) as (ms & G).
  exists ms. split; [exact G|].
  pose proof (getAll_Scan _ _ _ _ G) as [_ Sc].
  split; [exact Sc|]. split; [exact (Scan_from _ _ _ Sc)|].
  intros L. destruct Sc as [|from m ms Hle _ (Hlen & _) _]; [reflexivity | lia].
Qed.

Lemma getAll_from_lastIndex_witness :
  getAll 1 exampleText = Some ([mkMatch "@bg-color: blue" "bg-color" "blue" 13], 0)
  /\ getAll 40 exampleText = Some ([], 0).
Proof.
  split; [vm_compute; reflexivity|].
  destruct (getAll_from_lastIndex 40 exampleText) as (ms & G & _ & _ & E).
  rewrite G, E; [reflexivity | cbn; lia].
Defined.

(** ** The object over a session *)

Lemma keyLe_hintsFor (W : string) (matches : list Match) :
  StronglySorted (fun a b => keyLe (JS.toLowerCase a) (JS.toLowerCase b))
                 (map m1 (hintsFor W matches)).
Proof. apply StronglySorted_map_m1, sort_compareFn_sorted. Qed.

Lemma Reachable_sorted (s : LESSHint) :
  Reachable s ->
  StronglySorted (fun a b => keyLe (JS.toLowerCase a) (JS.toLowerCase b))
                 (hints s)
  /\ (editor s = true <-> exists start, startPos s = Some start).
Proof.
  induction 1 as [|host c s s' _ IH H|host c s s' _ IH H|host hint s s' _ IH H].
  - split; [constructor|]. cbn. split; [discriminate | intros [? ?]; discriminate].
  - rewrite hasHints_run in H. cbn in H.
    assert (s' = set_startPos (getCursorPos host) (set_editor s)) by congruence.
    subst s'. split; [exact (proj1 IH)|]. cbn. split; [now eexists | reflexivity].
  - destruct (getHints_cases host c s)
      as [[log E] | [[log E] | (start & ms & _ & He & Hs & _ & _ & G & E)]];
      rewrite E in H; cbn in H;
      match type of H with Some ?x = Some _ =>
        assert (Es : s' = x) by congruence end;
      subst s'; try exact IH.
    split; [apply keyLe_hintsFor | exact (proj2 IH)].
  - rewrite insertHint_run in H. destruct (editor s) eqn:He; cbn in H;
      assert (s' = s) by congruence; subst s'; rewrite He; exact IH.
Qed.

(** X11: In every state that the host can bring about, the sigil is ["@"], the
    pattern is at rest, the names in [hints] are in ascending order of their
    lower-case forms, [hintsHTML] has an element for every name: the name,
    then its value in the markup; the lists are empty as long as no editor
    has been recorded, and a start position is recorded exactly when an
    editor is. *)
Theorem Reachable_state (s : LESSHint) :
  Reachable s ->
  implicitChar s = "@"
  /\ regex_lastIndex s = 0
  /\ StronglySorted (fun a b => keyLe (JS.toLowerCase a) (JS.toLowerCase b))
                    (hints s)
  /\ length (hints s) = length (hintsHTML s)
  /\ (forall i name,
        nth_error (hints s) i = Some name ->
        allOf nameChar name = true
        /\ exists value,
             nth_error (hintsHTML s) i
             = Some (name ++ "<span style='color:#a0a0a0; margin-left: 10px'>"
                          ++ value ++ "</span>")%string)
  /\ (editor s = false -> hints s = [] /\ hintsHTML s = [])
  /\ (editor s = true <-> exists start, startPos s = Some start).
Proof.
  intros R. destruct (Reachable_sorted s R) as [Hsort Hed].
  apply Reachable_Invariant in R.
  destruct R as (I1 & I2 & (ms & Hh & Hhtml & Hn) & I4).
  split; [exact I1|]. split; [exact I2|]. split; [exact Hsort|].
  split; [now rewrite Hh, Hhtml, !length_map|].
  split.
  { intros i name Hi. rewrite Hh, nth_error_map in Hi.
    destruct (nth_error ms i) as [m|] eqn:Em; [|discriminate].
    cbn in Hi. assert (name = m1 m) by congruence. subst name.
    rewrite Forall_forall in Hn. split.
    - apply Hn. eapply nth_error_In; eauto.
    - exists (m2 m). now rewrite Hhtml, nth_error_map, Em. }
  split; [|exact Hed].
  intros He. destruct I4 as [E | [He' _]]; [|congruence].
  split; [|exact E]. rewrite Hhtml in E. rewrite Hh.
  destruct ms; [reflexivity | discriminate].
Qed.

Lemma Reachable_state_witness :
  implicitChar sessionWithHints = "@"
  /\ length (hints sessionWithHints) = length (hintsHTML sessionWithHints)
  /\ exists start, startPos sessionWithHints = Some start.
Proof.
  destruct (Reachable_state sessionWithHints sessionWithHints_Reachable)
    as (H1 & _ & _ & H4 & _ & _ & H7).
  split; [exact H1|]. split; [exact H4|]. apply H7. reflexivity.
Defined.

(** ** getHints *)

(** X12: [getHints] always comes back. When it answers [null] or throws, the
    object is as it was, with the lists of an earlier answer still in it;
    when it answers with a list, the list is [hintsHTML] of the object, as
    long as [hints], and the sigil, the editor and the start position are
    still as they were. *)
Theorem getHints_outcomes (host : Host) (c : option string) (s : LESSHint) :
  match getHints host c s with
  | Returned (Some r) s' _ =>
      response_hints r = hintsHTML s'
      /\ length (hints s') = length (hintsHTML s')
      /\ implicitChar s' = implicitChar s
      /\ editor s' = editor s
      /\ startPos s' = startPos s
  | Returned None s' _ => s' = s
  | Thrown s' _ => s' = s
  | Diverged => False
  end.
Proof.
  destruct (getHints_cases host c s)
    as [[log E] | [[log E] | (start & ms & _ & _ & _ & _ & _ & _ & E)]];
    rewrite E; try reflexivity.
  cbn. rewrite !length_map. repeat split.
Qed.

(** X13: Before [hasHints] has recorded an editor, [getHints] throws as soon as
    it asks for the cursor, and so does [insertHint]; neither reads the text
    or asks for a replacement. Only a typed character that is not allowed
    makes [getHints] answer [null] instead. *)
Theorem methods_without_editor (host : Host) (c : option string)
        (hint : string) (s : LESSHint) :
  editor s = false ->
  getHints host c s
  = (if invalidChar c then Returned None s [] else Thrown s [GetCurrentDocument])
  /\ insertHint host hint s = Thrown s [GetCurrentDocument].
Proof.
  intros He. split.
  - destruct (invalidChar c) eqn:Hc.
    + apply getHints_rejected. now rewrite validPosition_run, Hc.
    + unfold getHints, bind. now rewrite validPosition_run, Hc, He.
  - now rewrite insertHint_run, He.
Qed.

Lemma methods_without_editor_witness :
  getHints hostAtSigil (Some "c") new_LESSHint
  = Thrown new_LESSHint [GetCurrentDocument]
  /\ insertHint hostAtSigil "color" new_LESSHint
     = Thrown new_LESSHint [GetCurrentDocument].
Proof.
  apply (methods_without_editor hostAtSigil (Some "c") "color" new_LESSHint).
  reflexivity.
Defined.

(** X14: The first query of a session is never turned down for its position:
    [getHints], called after [hasHints] with the cursor where it was and with
    no character or an allowed one, answers with a list, whatever the object
    was before; the written text is the text of the empty range at the
    cursor. *)
Theorem getHints_after_hasHints (host : Host) (c c' : option string)
        (s s1 : LESSHint) :
  invalidChar c' = false ->
  stateAfter (hasHints host c s) = Some s1 ->
  exists matches s2,
    getAll (regex_lastIndex s) (getText host) = Some (matches, 0)
    /\ getHints host c' s1
       = Returned
           (Some {| response_hints :=
                      map render
                        (hintsFor (getRange host (getCursorPos host) (getCursorPos host))
                                  matches);
                    response_match := None;
                    selectInitial := true;
                    handleWideResults := false |})
           s2
           [GetCurrentDocument; GetCursorPos;
            GetRange (getCursorPos host) (getCursorPos host); GetText]
    /\ writtenSinceStart s2
       = getRange host (getCursorPos host) (getCursorPos host).
Proof.
  intros Hc H. rewrite hasHints_run in H. cbn in H.
  assert (s1 = set_startPos (getCursorPos host) (set_editor s)) by congruence.
  subst s1. destruct (getAll_total (regex_lastIndex s) (getText host)) as (ms & G).
  exists ms. eexists. split; [exact G|]. split.
  - apply getHints_run; try reflexivity; try assumption.
    now rewrite Nat.eqb_refl, Nat.leb_refl.
  - reflexivity.
Qed.

Lemma getHints_after_hasHints_witness :
  exists matches s2,
    getAll 0 (getText hostAtSigil) = Some (matches, 0)
    /\ getHints hostAtSigil None sessionStarted
       = Returned
           (Some {| response_hints :=
                      map render (hintsFor "" matches);
                    response_match := None;
                    selectInitial := true;
                    handleWideResults := false |})
           s2
           [GetCurrentDocument; GetCursorPos;
            GetRange (mkPos 2 12) (mkPos 2 12); GetText]
    /\ writtenSinceStart s2 = "".
Proof.
  apply (getHints_after_hasHints hostAtSigil (Some "@") None new_LESSHint
           sessionStarted); reflexivity.
Defined.

Lemma set_fields_again (s : LESSHint) (w : string) (hs hh : list string) :
  let s' := set_hintsHTML hh (set_hints hs (set_lastIndex 0
              (set_writtenSinceStart w s))) in
  set_hintsHTML hh (set_hints hs (set_lastIndex 0
    (set_writtenSinceStart w s'))) = s'.
Proof. reflexivity. Qed.

(** X15: Asking again changes nothing: when the pattern is at rest and the
    host has not changed, a second call of [getHints] gives the answer of the
    first and leaves the object as the first has left it. *)
Theorem getHints_twice (host : Host) (c : option string) (s : LESSHint) :
  regex_lastIndex s = 0 ->
  match getHints host c s with
  | Returned r s' log => getHints host c s' = Returned r s' log
  | Thrown s' log => getHints host c s' = Thrown s' log
  | Diverged => False
  end.
Proof.
  intros Z.
  destruct (getHints_cases host c s)
    as [[log E] | [[log E] | (start & ms & Hc & He & Hs & Hl & Hch & G & E)]];
    rewrite E; try exact E.
  rewrite Z in G.
  match goal with |- getHints host c ?s1 = _ => set (s' := s1) end.
  assert (Hp : ((line (getCursorPos host) =? line start)%nat
                && (ch start <=? ch (getCursorPos host))%nat) = true).
  { apply andb_true_iff. split; [now apply Nat.eqb_eq | now apply Nat.leb_le]. }
  rewrite (getHints_run host c s' start ms Hc He Hs Hp G).
  reflexivity.
Qed.

Lemma getHints_twice_witness :
  getHints hostAfterC (Some "c") sessionWithHints
  = getHints hostAfterC (Some "c") sessionStarted.
Proof.
  pose proof (getHints_twice hostAfterC (Some "c") sessionStarted eq_refl) as H.
  destruct (getHints hostAfterC (Some "c") sessionStarted) as [r s' log|s' log|] eqn:E.
  - assert (Es : sessionWithHints = s').
    { unfold sessionWithHints, stateOr. now rewrite E. }
    now rewrite Es.
  - assert (Es : sessionWithHints = s').
    { unfold sessionWithHints, stateOr. now rewrite E. }
    now rewrite Es.
  - contradiction.
Defined.

(** ** hasHints *)

(** X16: [hasHints] answers [true] for the string ["@"] and for nothing else:
    not for [null], not for the empty string, not for a longer string that
    begins with the sigil. *)
Theorem hasHints_true_iff_sigil (host : Host) (c : option string)
        (s : LESSHint) :
  implicitChar s = "@" ->
  ((exists s' log, hasHints host c s = Returned true s' log) <-> c = Some "@").
Proof.
  intros Hs. rewrite hasHints_run, Hs. split.
  - intros (s' & log & H).
    destruct c as [c|]; [|discriminate].
    destruct (JS.truthy c); [|discriminate].
    destruct (String.eqb_spec c "@"); [congruence | discriminate].
  - intros ->. eexists. eexists. reflexivity.
Qed.

Lemma hasHints_true_iff_sigil_witness :
  (exists s' log, hasHints hostAtSigil (Some "@") new_LESSHint = Returned true s' log)
  /\ ~ (exists s' log,
          hasHints hostAtSigil (Some "@c") new_LESSHint = Returned true s' log).
Proof.
  split.
  - apply (hasHints_true_iff_sigil hostAtSigil (Some "@") new_LESSHint eq_refl).
    reflexivity.
  - intros H.
    apply (hasHints_true_iff_sigil hostAtSigil (Some "@c") new_LESSHint eq_refl) in H.
    discriminate.
Defined.

(** ** validPosition: the test of the typed character *)

Lemma existsb_forallb_negb {A : Type} (p : A -> bool) (l : list A) :
  negb (existsb p l) = forallb (fun x => negb (p x)) l.
Proof.
  induction l as [|x l IH]; [reflexivity|]. cbn.
  now rewrite negb_orb, IH.
Qed.

(** X17: The pattern for the typed character is looked for anywhere in the
    string given: the string invalidates the session only when it is not
    empty and none of its characters is allowed. The empty string is taken
    as no character at all. *)
Theorem invalidChar_of_string (host : Host) (str : string) (s : LESSHint) :
  invalidChar (Some str)
  = negb (String.eqb str "")
    && forallb (fun c => negb (allowedChar c)) (list_ascii_of_string str)
  /\ validPosition host (Some "") s = validPosition host None s
  /\ getHints host (Some "") s = getHints host None s.
Proof.
  split.
  - unfold invalidChar, JS.truthy, chars_test, RegExp.test.
    rewrite existsb_forallb_negb. f_equal.
    induction (list_ascii_of_string str) as [|c l IH]; [reflexivity|].
    cbn [forallb]. now rewrite class_chars, IH.
  - assert (V : validPosition host (Some "") s = validPosition host None s)
      by (now rewrite !validPosition_run).
    split; [exact V|]. unfold getHints, bind. now rewrite V.
Qed.

(** ** processHints: the rendering *)

Lemma append_inv_head (a x y : string) :
  (a ++ x)%string = (a ++ y)%string -> x = y.
Proof.
  induction a as [|c a IH]; cbn; intros H; [exact H|].
  apply IH. congruence.
Qed.

(** X18: The element of [hintsHTML] tells the name and the value: two matches
    with names made of name characters are rendered alike only when they
    have the same name and the same value. *)
Theorem render_tells_name_and_value (a b : Match) :
  allOf nameChar (m1 a) = true ->
  allOf nameChar (m1 b) = true ->
  render a = render b ->
  m1 a = m1 b /\ m2 a = m2 b.
Proof.
  intros Ha Hb E. pose proof (render_name a b Ha Hb E) as En.
  split; [exact En|].
  unfold render in E. rewrite En in E.
  apply append_inv_head, append_inv_head in E.
  now apply append_inv_tail in E.
Qed.

Lemma render_tells_name_and_value_witness :
  m1 (mkMatch "@a: 1" "a" "1" 0) = m1 (mkMatch "@a:1" "a" "1" 7)
  /\ m2 (mkMatch "@a: 1" "a" "1" 0) = m2 (mkMatch "@a:1" "a" "1" 7).
Proof.
  apply (render_tells_name_and_value (mkMatch "@a: 1" "a" "1" 0)
                                     (mkMatch "@a:1" "a" "1" 7));
    reflexivity.
Defined.

(** ** The flag [i] of the two patterns *)

Lemma star_ext {R : Type} (p q : ascii -> bool) (k k' : string -> option R) :
  (forall c, p c = q c) -> (forall s, k s = k' s) ->
  forall s, star p k s = star q k' s.
Proof.
  intros Hp Hk s. induction s as [|c s IH]; cbn [star]; [apply Hk|].
  rewrite <- Hp, IH, Hk. reflexivity.
Qed.

Lemma matchNode_flag (n : node) :
  caseBlind (nodeAtom n) ->
  forall k k' : Cont,
    (forall s caps, k s caps = k' s caps) ->
    forall s caps, matchNode true n k s caps = matchNode false n k' s caps.
Proof.
  induction n as [a|a|a|n IH]; cbn [nodeAtom]; intros Hb k k' Hk s caps;
    cbn [matchNode].
  - destruct s as [|c s]; [reflexivity|]. rewrite Hb, Hk. reflexivity.
  - apply star_ext; [exact Hb | intros; apply Hk].
  - destruct s as [|c s]; [reflexivity|]. rewrite Hb.
    destruct (atomMatches false a c); [|reflexivity].
    apply star_ext; [exact Hb | intros; apply Hk].
  - apply (IH Hb). intros s' caps'. apply Hk.
Qed.

Lemma matchSeq_flag (r : regex) :
  Forall (fun n => caseBlind (nodeAtom n)) r ->
  forall k k' : Cont,
    (forall s caps, k s caps = k' s caps) ->
    forall s caps, matchSeq true r k s caps = matchSeq false r k' s caps.
Proof.
  induction 1 as [|n r Hn Hr IH]; intros k k' Hk s caps; cbn [matchSeq];
    [apply Hk|].
  apply (matchNode_flag n Hn). intros s' caps'. now apply IH.
Qed.

Lemma regex_nodes_caseBlind : Forall (fun n => caseBlind (nodeAtom n)) regex_nodes.
Proof.
  unfold regex_nodes, caseBlind.
  repeat constructor; cbn [nodeAtom]; apply by_table; vm_compute; reflexivity.
Qed.

Lemma chars_atom_caseBlind : caseBlind chars_atom.
Proof. unfold caseBlind. apply by_table. vm_compute. reflexivity. Qed.

Lemma search_flag (s : string) (i : nat) :
  search true regex_nodes s i = search false regex_nodes s i.
Proof.
  assert (M : forall s, matchHere true regex_nodes s = matchHere false regex_nodes s).
  { intros s'. unfold matchHere.
    apply (matchSeq_flag regex_nodes regex_nodes_caseBlind). reflexivity. }
  revert i. induction s as [|c s IH]; intros i.
  - change (search true regex_nodes "" i)
      with (match matchHere true regex_nodes "" with
            | Some (rest, caps) =>
                Some (i, JS.take (String.length "" - String.length rest) "", caps)
            | None => None
            end).
    rewrite M. reflexivity.
  - change (search true regex_nodes (String c s) i)
      with (match matchHere true regex_nodes (String c s) with
            | Some (rest, caps) =>
                Some (i, JS.take (String.length (String c s) - String.length rest)
                                 (String c s), caps)
            | None => search true regex_nodes s (S i)
            end).
    rewrite M, IH. reflexivity.
Qed.

(** X19: Neither pattern needs its flag [i]: with or without it, [exec] with
    the pattern of the declarations gives the same result at every position
    of every text, and [test] with the pattern of the typed character gives
    the same answer for every string. Letters are matched through classes
    that hold both cases, and the two literal characters have no case. *)
Theorem ignoreCase_makes_no_difference (lastIndex : nat) (text : string) :
  exec true regex_nodes lastIndex text = exec false regex_nodes lastIndex text
  /\ RegExp.test true chars_atom text = RegExp.test false chars_atom text.
Proof.
  split.
  - unfold exec. now rewrite search_flag.
  - unfold RegExp.test.
    induction (list_ascii_of_string text) as [|c l IH]; [reflexivity|].
    cbn [existsb]. now rewrite chars_atom_caseBlind, IH.
Qed.

(** ** getHints: the size of the answer *)

Lemma hintsFor_length (W : string) (matches : list Match) :
  length (hintsFor W matches) <= length matches.
Proof.
  unfold hintsFor. rewrite (Permutation_length (sort_perm compareFn _)).
  unfold filterHints. apply filter_length_le.
Qed.

Lemma hintsFor_nil_iff (W : string) (matches : list Match) :
  hintsFor W matches = []
  <-> forall m, In m matches ->
                ~ Subseq (JS.toLowerCase W) (JS.toLowerCase (m1 m)).
Proof.
  split.
  - intros E m Hin Hs.
    assert (H : In m (hintsFor W matches)).
    { unfold hintsFor. apply (Permutation_in _ (Permutation_sym (sort_perm compareFn _))).
      apply filterHints_In. split; assumption. }
    rewrite E in H. exact H.
  - intros H. destruct (hintsFor W matches) as [|m l] eqn:E; [reflexivity|].
    exfalso.
    assert (Hin : In m (hintsFor W matches)) by (rewrite E; now left).
    unfold hintsFor in Hin. apply (Permutation_in _ (sort_perm compareFn _)) in Hin.
    apply filterHints_In in Hin. destruct Hin as [Hin Hs]. exact (H m Hin Hs).
Qed.

(** X20: An answer of [getHints] that is not [null] holds at most as many
    elements as the text has declarations, and none exactly when the written
    text is a subsequence of no name: for want of candidates [getHints]
    answers with an empty list, not with [null]. *)
Theorem getHints_answer_size (host : Host) (c : option string)
        (s s' : LESSHint) (r : HintResponse) (log : list HostCall) :
  getHints host c s = Returned (Some r) s' log ->
  exists matches,
    getAll (regex_lastIndex s) (getText host) = Some (matches, 0)
    /\ length (response_hints r) <= length matches
    /\ (response_hints r = []
        <-> forall m, In m matches ->
              ~ Subseq (JS.toLowerCase (writtenSinceStart s'))
                       (JS.toLowerCase (m1 m))).
Proof.
  intros H.
  destruct (getHints_cases host c s)
    as [[log' E] | [[log' E] | (start & ms & _ & _ & _ & _ & _ & G & E)]];
    rewrite E in H; try discriminate.
  exists ms. split; [exact G|].
  assert (Er : response_hints r
               = map render (hintsFor (getRange host start (getCursorPos host)) ms))
    by (inversion H; reflexivity).
  assert (Ew : writtenSinceStart s' = getRange host start (getCursorPos host))
    by (inversion H; reflexivity).
  rewrite Er, Ew, length_map. split; [apply hintsFor_length|].
  rewrite <- hintsFor_nil_iff.
  destruct (hintsFor (getRange host start (getCursorPos host)) ms);
    cbn; split; congruence.
Qed.

Lemma getHints_answer_size_witness :
  exists matches,
    getAll 0 (getText hostNoCandidate) = Some (matches, 0)
    /\ length (@nil string) <= length matches
    /\ forall m, In m matches ->
          ~ Subseq (JS.toLowerCase "z") (JS.toLowerCase (m1 m)).
Proof.
  destruct (getHints_answer_size hostNoCandidate (Some "z") sessionNoCandidate
              (set_hintsHTML [] (set_hints [] (set_lastIndex 0
                 (set_writtenSinceStart "z" sessionNoCandidate))))
              {| response_hints := []; response_match := None;
                 selectInitial := true; handleWideResults := false |}
              [GetCurrentDocument; GetCursorPos;
               GetRange (mkPos 1 1) (mkPos 1 2); GetText])
    as (ms & G & L & E); [vm_compute; reflexivity|].
  exists ms. split; [exact G|]. split; [exact L|].
  apply E. reflexivity.
Defined.
